(** * Wave-equation solver kernels of [tests/test_wave.py]

    A shallow embedding of the data-parallel kernels [sample], [laplacian],
    [wave_displace], [wave_solve] and [grid_update], of the kernel launch, and
    of the host script that drives them with two swapped buffers.

    Integers are the integers [Z] of the source text, with the flooring [%]
    and [//] of Python; on a thread index [tid >= 0] and a positive width
    these agree with the truncating operators of the compiled kernel, and on a
    grid of positive width and height every index a kernel computes lies below
    [width * height].  Arrays are lists in a store keyed by array identity, so
    that two parameters of a kernel may alias.  A kernel thread is a function
    from stores to stores that fails on an access out of bounds; a launch runs
    its threads one after the other in an order the model leaves open. *)

From Stdlib Require Import ZArith Lia QArith Floats.
From stdpp Require Import base option list gmap.

Local Open Scope Z_scope.

(** ** Scalars

    The kernels compute on [float] values.  The operations the source applies
    to them form the interface below; every kernel is written against it, so a
    statement proved for an arbitrary instance holds for single and for double
    precision alike. *)
Class Scalar (F : Type) := {
  fadd : F → F → F;
  fsub : F → F → F;
  fmul : F → F → F;
  fdiv : F → F → F;
  fopp : F → F;
  fltb : F → F → bool;
  fis_zero : F → bool;          (* [y == 0.0], the test behind ZeroDivisionError *)
  fis_finite : F → bool;        (* neither an infinity nor a NaN *)
  of_int : Z → F;               (* [float(n)] for an integer [n] *)
  flit : Q → F;                 (* a decimal literal of the source *)
  ftrunc : F → option Z;        (* [int(x)]; fails on a non-finite [x] *)
  fsin : F → F;                 (* [wp.sin], [math.sin] *)
  fcos : F → F;                 (* [math.cos] *)
  fpi : F;                      (* [math.pi] *)
}.

Declare Scope scalar_scope.
Delimit Scope scalar_scope with F.
Infix "+" := fadd : scalar_scope.
Infix "-" := fsub : scalar_scope.
Infix "*" := fmul : scalar_scope.
Infix "/" := fdiv : scalar_scope.
Infix "<?" := fltb : scalar_scope.
Notation "- x" := (fopp x) : scalar_scope.

(** Three-component vectors, [wp.vec3]. *)
Definition vec3 (F : Type) : Type := F * F * F.

(** ** Device memory *)

(** Modelled from the spec: [wp.clamp] is a builtin of the kernel language and
    is not part of the sources; it is [min(max(a, x), b)]. *)
Definition wp_clamp (x a b : Z) : Z := Z.min (Z.max a x) b.

(** The clamp of the specification, by cases. *)
Definition clamp (x lo hi : Z) : Z :=
  if decide (x < lo) then lo else if decide (hi < x) then hi else x.

(** ** The mesh of the script *)

(** [grid_index(x, y, stride)] *)
Definition grid_index (x y stride : Z) : Z := y * stride + x.

(** The two triangles the set-up loops append for the cell whose far corner
    is [(x, z)]. *)
Definition quad (x z stride : Z) : list Z :=
  [grid_index (x - 1) (z - 1) stride; grid_index x z stride;
   grid_index x (z - 1) stride;
   grid_index (x - 1) (z - 1) stride; grid_index (x - 1) z stride;
   grid_index x z stride].

(** The lists [indices] and [counts] after the loops
    [for z in range(sim_height): for x in range(sim_width)], which append to
    them when [x > 0 and z > 0]. *)
Definition mesh_row (width z : Z) (acc : list Z * list Z) : list Z * list Z :=
  foldl (λ '(indices, counts) x,
           if decide (0 < x ∧ 0 < z)
           then (indices ++ quad x z width, counts ++ [3; 3])
           else (indices, counts))
        acc (seqZ 0 width).

Definition mesh_faces (width height : Z) : list Z * list Z :=
  foldl (λ acc z, mesh_row width z acc) ([], []) (seqZ 0 height).

Section Kernels.
Context {F : Type} {SF : Scalar F}.

(** Arrays live in a store addressed by array identity: two kernel
    parameters may name the same array. *)
#[local] Abbreviation heap := (gmap nat (list F)).
#[local] Abbreviation vheap := (gmap nat (list (vec3 F))).

(** Modelled from the spec: [wp.load] and [wp.store] are builtins of the kernel
    language; an index outside the array is a fault, here [None]. *)
Definition wp_load {A} (σ : gmap nat (list A)) (f : nat) (i : Z) : option A :=
  a ← σ !! f;
  if decide (0 ≤ i) then a !! Z.to_nat i else None.

Definition wp_store {A} (σ : gmap nat (list A)) (f : nat) (i : Z) (v : A)
  : option (gmap nat (list A)) :=
  a ← σ !! f;
  if decide (0 ≤ i < Z.of_nat (length a))
  then Some (<[f := <[Z.to_nat i := v]> a]> σ)
  else None.

Definition sample (σ : heap) (f : nat) (x y width height : Z) : option F :=
  (* clamp texture coords *)
  let x := wp_clamp x 0 (width - 1) in
  let y := wp_clamp y 0 (height - 1) in
  wp_load σ f (y * width + x).

Definition laplacian (σ : heap) (f : nat) (x y width height : Z) : option F :=
  a ← sample σ f (x + 1) y width height;
  b ← sample σ f x y width height;
  c ← sample σ f (x - 1) y width height;
  let ddx := (a - flit 2 * b + c)%F in
  a' ← sample σ f x (y + 1) width height;
  b' ← sample σ f x y width height;
  c' ← sample σ f x (y - 1) width height;
  let ddy := (a' - flit 2 * b' + c')%F in
  Some (ddx + ddy)%F.

(** The decomposition [x = tid % width], [y = tid // width] of a thread index;
    a zero [width] is a fault. *)
Definition cell_of (tid width : Z) : option (Z * Z) :=
  if decide (width = 0) then None else Some (tid `mod` width, tid `div` width).

(** One thread of [wave_displace]. *)
Definition wave_displace (hcurrent hprevious : nat) (width height : Z)
    (center_x center_y r mag t : F) (tid : Z) (σ : heap) : option heap :=
  '(x, y) ← cell_of tid width;
  let dx := (of_int x - center_x)%F in
  let dy := (of_int y - center_y)%F in
  let dist_sq := (dx * dx + dy * dy)%F in
  if (dist_sq <? r * r)%F then
    let h := (mag * fsin t)%F in
    σ ← wp_store σ hcurrent tid h;
    wp_store σ hprevious tid h
  else Some σ.

(** One thread of [wave_solve]. *)
Definition wave_solve (hprevious hcurrent : nat) (width height : Z)
    (inv_cell k_speed k_damp dt : F) (tid : Z) (σ : heap) : option heap :=
  '(x, y) ← cell_of tid width;
  lap ← laplacian σ hcurrent x y width height;
  let l := (lap * inv_cell * inv_cell)%F in
  (* integrate *)
  h1 ← wp_load σ hcurrent tid;
  h0 ← wp_load σ hprevious tid;
  let h := (flit 2 * h1 - h0 + dt * dt * (k_speed * l - k_damp * (h1 - h0)))%F in
  (* buffers get swapped each iteration *)
  wp_store σ hprevious tid h.

(** One thread of [grid_update]: heights come from the scalar store, vertices
    live in the vector store. *)
Definition grid_update (heights vertices : nat) (tid : Z)
    (σ : heap) (ν : vheap) : option vheap :=
  h ← wp_load σ heights tid;
  v ← wp_load ν vertices tid;
  let v_new : vec3 F := (v.1.1, h, v.2) in
  wp_store ν vertices tid v_new.

(** [wp.launch]: the threads of a launch run in some order, each on the store
    the threads before it left. *)
Fixpoint launch {S} (body : Z → S → option S) (sched : list Z) (σ : S) : option S :=
  match sched with
  | [] => Some σ
  | tid :: rest => σ' ← body tid σ; launch body rest σ'
  end.

(** A schedule of a launch of dimension [dim] runs each thread once. *)
Definition schedule (dim : Z) (sched : list Z) : Prop :=
  sched ≡ₚ seqZ 0 dim.

(** ** Notions the properties are stated with *)

(** Two store transformers commute when either order has the same effect
    before any continuation, faults included. *)
Definition commutes {S} (f g : S → option S) : Prop :=
  ∀ (T : Type) (k : S → option T) σ,
    f σ ≫= (λ σ', g σ' ≫= k) = g σ ≫= (λ σ', f σ' ≫= k).

(** What a launch may do to a store: the arrays not listed in [fs] are
    what they were, and every array, listed or not, keeps its length. *)
Definition touches_only {A} (fs : list nat) (σ σ' : gmap nat (list A)) : Prop :=
  (∀ g, g ∉ fs → σ' !! g = σ !! g)
  ∧ (∀ g, length <$> σ' !! g = length <$> σ !! g).

(** A read of a cell followed by a write to the same cell. *)
Definition wp_modify {A} (f : nat) (i : Z) (g : A → A) (σ : gmap nat (list A))
  : option (gmap nat (list A)) :=
  v ← wp_load σ f i; wp_store σ f i (g v).

(** The effect on an array of threads that each write their own cell: thread
    [t] writes [x] when [w t = Some x] and nothing when [w t = None]. *)
Definition writes {A} (w : Z → option A) (sched : list Z) (a : list A) : list A :=
  foldl (λ acc t, match w t with
                  | Some x => <[Z.to_nat t := x]> acc
                  | None => acc
                  end) a sched.

(** The effect of [grid_update] threads on the vertex array: thread [t] puts
    height [t] into the second component of vertex [t]. *)
Definition raised (hs : list F) (sched : list Z) (vs : list (vec3 F))
  : list (vec3 F) :=
  foldl (λ acc t, match hs !! Z.to_nat t with
                  | Some h => alter (λ v : vec3 F, (v.1.1, h, v.2)) (Z.to_nat t) acc
                  | None => acc
                  end) vs sched.

(** The value a thread of [wave_solve] computes, as a function of the store it
    reads. *)
Definition wave_solve_value (σ : heap) (hprevious hcurrent : nat)
    (width height : Z) (inv_cell k_speed k_damp dt : F) (tid : Z) : option F :=
  '(x, y) ← cell_of tid width;
  lap ← laplacian σ hcurrent x y width height;
  let l := (lap * inv_cell * inv_cell)%F in
  h1 ← wp_load σ hcurrent tid;
  h0 ← wp_load σ hprevious tid;
  Some (flit 2 * h1 - h0 + dt * dt * (k_speed * l - k_damp * (h1 - h0)))%F.

(** The reference semantics of a [wave_solve] thread: every read is taken from
    the store [σ0] the launch started from, the write goes to the running
    store. *)
Definition wave_solve_at_entry (σ0 : heap) (hprevious hcurrent : nat)
    (width height : Z) (inv_cell k_speed k_damp dt : F) (tid : Z) (σ : heap)
  : option heap :=
  h ← wave_solve_value σ0 hprevious hcurrent width height inv_cell k_speed k_damp dt tid;
  wp_store σ hprevious tid h.

(** The update as the specification words it: the Laplacian is divided by the
    square of the cell spacing. *)
Definition leapfrog_spec (lap h1 h0 cell_spacing k_speed k_damp dt : F) : F :=
  let l := (lap / (cell_spacing * cell_spacing))%F in
  (flit 2 * h1 - h0 + dt * dt * (k_speed * l - k_damp * (h1 - h0)))%F.

(** Whether [wave_displace] stamps the cell of thread [tid]. *)
Definition in_disk (width : Z) (center_x center_y r : F) (tid : Z) : bool :=
  let dx := (of_int (tid `mod` width) - center_x)%F in
  let dy := (of_int (tid `div` width) - center_y)%F in
  ((dx * dx + dy * dy) <? r * r)%F.

(** ** The host script *)

(** Modelled from the spec: [wp.zeros] and [wp.copy] are library calls outside
    the sources.  [wp.zeros n] is an array of [n] zeros and refuses a negative
    [n]; [wp.copy dst src] overwrites the contents of [dst] with those of
    [src], both being arrays of the store. *)
Definition wp_zeros {A} (zero : A) (n : Z) : option (list A) :=
  if decide (0 ≤ n) then Some (replicate (Z.to_nat n) zero) else None.

Definition wp_copy {A} (σ : gmap nat (list A)) (dst src : nat)
  : option (gmap nat (list A)) :=
  a ← σ !! src;
  d ← σ !! dst;
  if decide (length a = length d) then Some (<[dst := a]> σ) else None.

(** What the script can raise. *)
Inductive exn :=
  | ZeroDivisionError
  | OverflowError       (* a Python int too large to convert to a float *)
  | NameError           (* a read of a variable that is not bound *)
  | IntOfNonFinite      (* [int] of a NaN or of an infinity *)
  | BadAlloc            (* [wp.zeros] of a negative size *)
  | KernelFault.        (* an out-of-bounds access or a division by zero in a kernel *)

(** The result of a computation of the script; [Raised] carries the number of
    kernels launched before the exception. *)
Inductive outcome (A : Type) :=
  | Ok (a : A)
  | Raised (e : exn) (launched : nat).
#[global] Arguments Ok {A} a.
#[global] Arguments Raised {A} e launched.

(** Python's [x / y] for a float [y]. *)
Definition py_div (x y : F) : option F :=
  if fis_zero y then None else Some (x / y)%F.

(** Python's conversion of an int to a float: the nearest float, and an
    [OverflowError] when that is beyond the largest one. *)
Definition py_float (n : Z) : option F :=
  if fis_finite (of_int n) then Some (of_int n) else None.

(** Python's [x / n] for a float [x] and an int [n]: [n] is converted first,
    then tested against zero. *)
Definition py_div_int (x : F) (n : Z) : exn + F :=
  match py_float n with
  | None => inl OverflowError
  | Some y => if decide (n = 0) then inl ZeroDivisionError else inr (x / y)%F
  end.

(** The parameters at the top of the script. *)
Record params := {
  sim_width : Z;
  sim_height : Z;
  sim_fps : F;
  sim_substeps : Z;
  sim_duration : F;
  k_speed : F;
  k_damp : F;
  grid_size : F;
  grid_displace : F;
}.

(** The variables of the script that change while it runs: the two references
    [sim_grid0] and [sim_grid1] into the store, the store of scalar arrays
    (both grids and [sim_host]), the store holding [verts_host], the clock, the
    count of kernel launches so far, and the pair [cx], [cy], which no
    statement binds before the first substep. *)
Record host := {
  sim_grid0 : nat;
  sim_grid1 : nat;
  sim_host : nat;
  verts_host : nat;
  device : heap;
  vdevice : vheap;
  sim_time : F;
  launched : nat;
  centre : option (F * F);
}.

(** The order in which the threads of the [k]-th launch run. *)
Definition oracle := nat → Z → list Z.
Definition fair (o : oracle) : Prop := ∀ k dim, schedule dim (o k dim).
Definition ascending : oracle := λ _ dim, seqZ 0 dim.

(** [(sim_grid0, sim_grid1) = (sim_grid1, sim_grid0)] *)
Definition swap_grids (st : host) : host :=
  {| sim_grid0 := sim_grid1 st; sim_grid1 := sim_grid0 st;
     sim_host := sim_host st; verts_host := verts_host st;
     device := device st; vdevice := vdevice st;
     sim_time := sim_time st; launched := launched st; centre := centre st |}.

Definition with_device (st : host) (σ : heap) (n : nat) : host :=
  {| sim_grid0 := sim_grid0 st; sim_grid1 := sim_grid1 st;
     sim_host := sim_host st; verts_host := verts_host st;
     device := σ; vdevice := vdevice st;
     sim_time := sim_time st; launched := n; centre := centre st |}.

Definition with_vdevice (st : host) (ν : vheap) (n : nat) : host :=
  {| sim_grid0 := sim_grid0 st; sim_grid1 := sim_grid1 st;
     sim_host := sim_host st; verts_host := verts_host st;
     device := device st; vdevice := ν;
     sim_time := sim_time st; launched := n; centre := centre st |}.

Definition advance (st : host) (dt : F) : host :=
  {| sim_grid0 := sim_grid0 st; sim_grid1 := sim_grid1 st;
     sim_host := sim_host st; verts_host := verts_host st;
     device := device st; vdevice := vdevice st;
     sim_time := (sim_time st + dt)%F; launched := launched st;
     centre := centre st |}.

(** The assignments to [cx] and [cy]. *)
Definition bind_centre (st : host) (cx cy : F) : host :=
  {| sim_grid0 := sim_grid0 st; sim_grid1 := sim_grid1 st;
     sim_host := sim_host st; verts_host := verts_host st;
     device := device st; vdevice := vdevice st;
     sim_time := sim_time st; launched := launched st;
     centre := Some (cx, cy) |}.

(** The disturbance centre of a substep. *)
Definition center (extent : Z) (orbit : F) : F :=
  (of_int extent / of_int 2 + orbit * of_int extent / of_int 3)%F.

(** The second half of a substep: the launch of [wave_solve] and the swap
    [(sim_grid0, sim_grid1) = (sim_grid1, sim_grid0)] that follows it. *)
Definition integrate (o : oracle) (cfg : params) (inv_cell sim_dt : F) (st : host)
  : outcome host :=
  let n := launched st in
  (* integrate wave equation *)
  match launch (wave_solve (sim_grid0 st) (sim_grid1 st)
                  (sim_width cfg) (sim_height cfg)
                  inv_cell (k_speed cfg) (k_damp cfg) sim_dt)
               (o n (sim_width cfg * sim_height cfg)) (device st) with
  | None => Raised KernelFault (S n)
  | Some σ =>
    (* swap grids *)
    Ok (swap_grids (with_device st σ (S n)))
  end.

(** The body of [for s in range(sim_substeps)]. *)
Definition substep (o : oracle) (cfg : params) (sim_dt : F) (st : host)
  : outcome host :=
  (* create surface displacement around a point *)
  let cx := center (sim_width cfg) (fsin (sim_time st)) in
  let cy := center (sim_height cfg) (fcos (sim_time st)) in
  let n := launched st in
  match launch (wave_displace (sim_grid0 st) (sim_grid1 st)
                  (sim_width cfg) (sim_height cfg) cx cy
                  (flit 10) (grid_displace cfg) (- fpi * flit 0.5)%F)
               (o n (sim_width cfg * sim_height cfg)) (device st) with
  | None => Raised KernelFault (S n)
  | Some σ1 =>
    match py_div (flit 1) (grid_size cfg) with
    | None => Raised ZeroDivisionError (S n)
    | Some inv_cell =>
      match integrate o cfg inv_cell sim_dt
              (with_device (bind_centre st cx cy) σ1 (S n)) with
      | Raised e k => Raised e k
      | Ok st2 => Ok (advance st2 sim_dt)
      end
    end
  end.

(** Both grids of a state are different arrays of [sim_width * sim_height]
    cells that all satisfy [P]. *)
Definition grids_satisfy (P : F → Prop) (cfg : params) (st : host) : Prop :=
  sim_grid0 st ≠ sim_grid1 st
  ∧ ∃ a b,
      device st !! sim_grid0 st = Some a ∧ device st !! sim_grid1 st = Some b
      ∧ length a = Z.to_nat (sim_width cfg * sim_height cfg)
      ∧ length b = Z.to_nat (sim_width cfg * sim_height cfg)
      ∧ Forall P a ∧ Forall P b.

(** The arrays of a state have the size of the grid: the two grids are
    different arrays, the host array is a third one, and these three and the
    vertex array hold [sim_width * sim_height] cells. *)
Definition well_formed (cfg : params) (st : host) : Prop :=
  sim_grid0 st ≠ sim_grid1 st
  ∧ sim_host st ≠ sim_grid0 st ∧ sim_host st ≠ sim_grid1 st
  ∧ ∃ a b h vs,
      device st !! sim_grid0 st = Some a ∧ device st !! sim_grid1 st = Some b
      ∧ device st !! sim_host st = Some h
      ∧ vdevice st !! verts_host st = Some vs
      ∧ length a = Z.to_nat (sim_width cfg * sim_height cfg)
      ∧ length b = Z.to_nat (sim_width cfg * sim_height cfg)
      ∧ length h = Z.to_nat (sim_width cfg * sim_height cfg)
      ∧ length vs = Z.to_nat (sim_width cfg * sim_height cfg).

(** [for _ in range(n)]: repeat a step, stopping at the first exception. *)
Fixpoint repeat_outcome {A} (n : nat) (step : A → outcome A) (a : A) : outcome A :=
  match n with
  | O => Ok a
  | S n' => match step a with
            | Ok a' => repeat_outcome n' step a'
            | Raised e k => Raised e k
            end
  end.

(** The body of [for i in range(sim_frames)]: the substeps, the copy of
    [sim_grid0] to the host, the mesh update, and the read of [cx] and [cy]
    for the marker of the disturbance, which are bound only once a substep has
    run.  What the script hands to the scene writer is not part of the
    solver. *)
Definition frame (o : oracle) (cfg : params) (sim_dt : F) (st : host)
  : outcome host :=
  match repeat_outcome (Z.to_nat (sim_substeps cfg)) (substep o cfg sim_dt) st with
  | Raised e k => Raised e k
  | Ok st1 =>
    let n := launched st1 in
    (* copy data back to host *)
    match wp_copy (device st1) (sim_host st1) (sim_grid0 st1) with
    | None => Raised KernelFault n
    | Some σ =>
      (* update grid vertices from heights *)
      match launch (λ tid ν, grid_update (sim_host st1) (verts_host st1) tid σ ν)
                   (o n (sim_width cfg * sim_height cfg)) (vdevice st1) with
      | None => Raised KernelFault (S n)
      | Some ν =>
        (* add_sphere(stage, (cx*grid_size, 0.0, cy*grid_size), ...) *)
        match centre st1 with
        | None => Raised NameError (S n)
        | Some _ => Ok (with_vdevice (with_device st1 σ n) ν (S n))
        end
      end
    end
  end.

(** The writes [vertices[z*sim_width + x] = pos] of the set-up loops. *)
Definition place_vertices (cfg : params) (verts : list (vec3 F)) : list (vec3 F) :=
  foldl (λ vs z,
    foldl (λ vs x,
      let pos : vec3 F :=
        ((of_int x * grid_size cfg)%F, flit 0, (of_int z * grid_size cfg)%F) in
      <[Z.to_nat (z * sim_width cfg + x) := pos]> vs)
      vs (seqZ 0 (sim_width cfg)))
    verts (seqZ 0 (sim_height cfg)).

(** The script up to its main loop: the derived parameters, then the
    allocations.  Nothing is launched here. *)
Definition setup (cfg : params) : outcome (nat * F * host) :=
  match ftrunc (sim_duration cfg * sim_fps cfg)%F with
  | None => Raised IntOfNonFinite 0
  | Some sim_frames =>
    match py_div (flit 1) (sim_fps cfg) with
    | None => Raised ZeroDivisionError 0
    | Some q =>
      match py_div_int q (sim_substeps cfg) with
      | inl e => Raised e 0
      | inr sim_dt =>
        let n := sim_width cfg * sim_height cfg in
        match wp_zeros (flit 0) n, wp_zeros ((flit 0, flit 0, flit 0) : vec3 F) n with
        | Some grid, Some verts =>
          Ok (Z.to_nat sim_frames, sim_dt,
              {| sim_grid0 := 0; sim_grid1 := 1; sim_host := 2; verts_host := 0;
                 device := <[2%nat := grid]> (<[1%nat := grid]> (<[0%nat := grid]> ∅));
                 vdevice := <[0%nat := place_vertices cfg verts]> ∅;
                 sim_time := flit 0; launched := 0; centre := None |})
        | _, _ => Raised BadAlloc 0
        end
      end
    end
  end.

(** The whole script. *)
Definition run (o : oracle) (cfg : params) : outcome host :=
  match setup cfg with
  | Raised e k => Raised e k
  | Ok (sim_frames, sim_dt, st) => repeat_outcome sim_frames (frame o cfg sim_dt) st
  end.

End Kernels.

(** ** Double precision

    The instance of the scalar interface on IEEE-754 binary64.  Sine and
    cosine are library functions; the instance takes them as arguments. *)
Module Binary64.

(** [float(n)]: the integer rounded to the nearest double. *)
Definition of_Z (n : Z) : float :=
  SF2Prim (binary_normalize prec emax n 0 false).

(** A decimal literal [p/q]: the correctly rounded quotient. *)
Definition of_Q (q : Q) : float :=
  (of_Z (Qnum q) / of_Z (Zpos (Qden q)))%float.

(** [int(x)]: truncation towards zero. *)
Definition trunc (x : float) : option Z :=
  match Prim2SF x with
  | S754_zero _ => Some 0
  | S754_finite s m e =>
      let a := if decide (0 ≤ e) then Zpos m * 2 ^ e else Zpos m `div` 2 ^ (- e) in
      Some (if s then - a else a)
  | _ => None
  end.

Definition pi : float := 0x1.921fb54442d18p+1%float.

Definition scalar (sin cos : float → float) : Scalar float := {|
  fadd := PrimFloat.add;
  fsub := PrimFloat.sub;
  fmul := PrimFloat.mul;
  fdiv := PrimFloat.div;
  fopp := PrimFloat.opp;
  fltb := PrimFloat.ltb;
  fis_zero := λ x, PrimFloat.eqb x 0%float;
  fis_finite := is_finite;
  of_int := of_Z;
  flit := of_Q;
  ftrunc := trunc;
  fsin := sin;
  fcos := cos;
  fpi := pi;
|}.

(** A cosine and a sine for running the script: the Taylor polynomial of the
    cosine at 0, and the sine as a shifted cosine. *)
Definition cos_taylor (x : float) : float :=
  let x2 := (x * x)%float in
  (1 - x2 / 2 * (1 - x2 / 12 * (1 - x2 / 30 * (1 - x2 / 56 * (1 - x2 / 90)))))%float.

Definition sin_taylor (x : float) : float :=
  (- cos_taylor (x + pi / 2))%float.

Definition taylor : Scalar float := scalar sin_taylor cos_taylor.

(** Worked data: a row of two cells, array 0 flat and array 1 with a unit
    bump in its first cell; and a 4 by 4 grid with distinct heights. *)
Definition two_cells : gmap nat (list float) :=
  <[1%nat := [1; 0]%float]> (<[0%nat := [0; 0]%float]> ∅).

Definition ramp : list float :=
  [10; 11; 12; 13; 14; 15; 16; 17; 18; 19; 20; 21; 22; 23; 24; 25]%float.

Definition grid_4x4 : gmap nat (list float) :=
  <[1%nat := ramp]> (<[0%nat := ramp]> ∅).

Definition two_vertices : gmap nat (list (vec3 float)) :=
  <[0%nat := [(1, 2, 3); (4, 5, 6)]%float]> ∅.

(** The parameters of the script on a 4 by 4 grid, and two variations: no
    cell spacing, and no frames per second. *)
Definition script_4x4 : @params float :=
  {| sim_width := 4; sim_height := 4; sim_fps := 60%float; sim_substeps := 16;
     sim_duration := 5%float; k_speed := 1%float; k_damp := 0%float;
     grid_size := of_Q 0.1; grid_displace := 0.5%float |}.

Definition no_spacing : @params float :=
  {| sim_width := 4; sim_height := 4; sim_fps := 60%float; sim_substeps := 16;
     sim_duration := 5%float; k_speed := 1%float; k_damp := 0%float;
     grid_size := 0%float; grid_displace := 0.5%float |}.

Definition no_fps : @params float :=
  {| sim_width := 4; sim_height := 4; sim_fps := 0%float; sim_substeps := 16;
     sim_duration := 5%float; k_speed := 1%float; k_damp := 0%float;
     grid_size := of_Q 0.1; grid_displace := 0.5%float |}.


(** Threads in descending order. *)
Definition descending : oracle := λ _ dim, reverse (seqZ 0 dim).





(** The script on a row of two cells with three substeps, and the states of
    it whose references are [g0] and [g1], whose arrays 1 and 0 are [a1] and
    [a0], whose host array is array 2, whose vertices are the two above and
    whose disturbance centre is [c]. *)
Definition row : @params float :=
  {| sim_width := 2; sim_height := 1; sim_fps := 60%float; sim_substeps := 3;
     sim_duration := 5%float; k_speed := 1%float; k_damp := 0%float;
     grid_size := of_Q 0.1; grid_displace := 0.5%float |}.

Definition row_host (g0 g1 : nat) (a1 a0 : list float) (t : float) (n : nat)
    (c : option (float * float)) : @host float :=
  {| sim_grid0 := g0; sim_grid1 := g1; sim_host := 2; verts_host := 0;
     device := <[2%nat := [7; 7]%float]> (<[1%nat := a1]> (<[0%nat := a0]> ∅));
     vdevice := two_vertices; sim_time := t; launched := n; centre := c |}.

(** Classes of specified floats: the zeros, the zeros and the finite numbers,
    and the values that carry the sign [sx] or are not a number. *)
Definition sf_is_zero (x : spec_float) : bool :=
  match x with S754_zero _ => true | _ => false end.


Definition sf_has_sign (sx : bool) (x : spec_float) : Prop :=
  match x with
  | S754_nan => True
  | S754_zero s | S754_infinity s | S754_finite s _ _ => s = sx
  end.

End Binary64.

(** * Properties *)

(** ** Clamping and sampling *)

Lemma wp_clamp_clamp x lo hi : lo ≤ hi → wp_clamp x lo hi = clamp x lo hi.
Proof. unfold wp_clamp, clamp. intros. repeat case_decide; lia. Qed.

Lemma clamp_range x lo hi : lo ≤ hi → lo ≤ clamp x lo hi ≤ hi.
Proof. unfold clamp. intros. repeat case_decide; lia. Qed.

Lemma clamp_inside x lo hi : lo ≤ x ≤ hi → clamp x lo hi = x.
Proof. unfold clamp. intros. repeat case_decide; lia. Qed.

Lemma cell_index_range x y W H :
  0 ≤ x < W → 0 ≤ y < H → 0 ≤ y * W + x < W * H.
Proof. intros. nia. Qed.

Section Sampling.
Context {F : Type} {SF : Scalar F}.
Implicit Types (σ : gmap nat (list F)) (a : list F).

Lemma wp_load_Some {A} (σ : gmap nat (list A)) f (a : list A) i :
  σ !! f = Some a → 0 ≤ i → wp_load σ f i = a !! Z.to_nat i.
Proof. intros Hf Hi. unfold wp_load. rewrite Hf. simpl. by rewrite decide_True. Qed.

Lemma sample_lookup σ f a W H x y :
  1 ≤ W → 1 ≤ H → σ !! f = Some a →
  sample σ f x y W H
  = a !! Z.to_nat (clamp y 0 (H - 1) * W + clamp x 0 (W - 1)).
Proof.
  intros HW HH Hf. unfold sample.
  rewrite !wp_clamp_clamp by lia.
  pose proof (clamp_range x 0 (W - 1)). pose proof (clamp_range y 0 (H - 1)).
  apply wp_load_Some; [done | nia].
Qed.

(** C3. On a field of width [W ≥ 1] and height [H ≥ 1], [sample] at any
    integers [x], [y] reads the value stored at the clamped coordinates: the
    clamped coordinates lie in the grid, the read succeeds, it returns
    [values[clamp(y,0,H-1)*W + clamp(x,0,W-1)]], and it agrees with [sample]
    at the clamped coordinates. *)
Theorem sample_clamped σ f a W H x y :
  1 ≤ W → 1 ≤ H → σ !! f = Some a → length a = Z.to_nat (W * H) →
  let cx := clamp x 0 (W - 1) in
  let cy := clamp y 0 (H - 1) in
  (0 ≤ cx < W ∧ 0 ≤ cy < H)
  ∧ is_Some (sample σ f x y W H)
  ∧ sample σ f x y W H = a !! Z.to_nat (cy * W + cx)
  ∧ sample σ f x y W H = sample σ f cx cy W H.
Proof.
  intros HW HH Hf Hlen cx cy.
  pose proof (clamp_range x 0 (W - 1)) as Hx.
  pose proof (clamp_range y 0 (H - 1)) as Hy.
  assert (0 ≤ cx < W ∧ 0 ≤ cy < H) as [Hcx Hcy] by (subst cx cy; lia).
  split; [done |].
  rewrite !(sample_lookup _ _ _ _ _ _ _ HW HH Hf).
  fold cx cy. rewrite !clamp_inside by lia.
  split; [| done].
  apply lookup_lt_is_Some. rewrite Hlen.
  pose proof (cell_index_range cx cy W H Hcx Hcy). lia.
Qed.

End Sampling.

(** A field of three columns and two rows, sampled far outside. *)
Lemma sample_clamped_witness :
  let σ : gmap nat (list float) := {[ 0%nat := [1; 2; 3; 4; 5; 6]%float ]} in
  (0 ≤ clamp 1000 0 (3 - 1) < 3 ∧ 0 ≤ clamp (-7) 0 (2 - 1) < 2)
  ∧ is_Some (sample σ 0 1000 (-7) 3 2)
  ∧ sample σ 0 1000 (-7) 3 2
    = [1; 2; 3; 4; 5; 6]%float
        !! Z.to_nat (clamp (-7) 0 (2 - 1) * 3 + clamp 1000 0 (3 - 1))
  ∧ sample σ 0 1000 (-7) 3 2
    = sample σ 0
        (clamp 1000 0 (3 - 1)) (clamp (-7) 0 (2 - 1)) 3 2.
Proof.
  intros σ.
  apply (sample_clamped σ 0
           [1; 2; 3; 4; 5; 6]%float 3 2 1000 (-7));
    [lia | lia | reflexivity | reflexivity].
Defined.

(** ** Stores and launches *)

Section Store.
Context {A : Type}.
Implicit Types (σ : gmap nat (list A)) (a : list A).

Lemma wp_store_Some σ f a i v :
  σ !! f = Some a → 0 ≤ i < Z.of_nat (length a) →
  wp_store σ f i v = Some (<[f := <[Z.to_nat i := v]> a]> σ).
Proof. intros Hf Hi. unfold wp_store. rewrite Hf. simpl. by rewrite decide_True. Qed.

Lemma wp_store_inv σ σ' f i v :
  wp_store σ f i v = Some σ' →
  ∃ a, σ !! f = Some a ∧ 0 ≤ i < Z.of_nat (length a)
       ∧ σ' = <[f := <[Z.to_nat i := v]> a]> σ.
Proof.
  unfold wp_store. destruct (σ !! f) as [a|]; simpl; [| done].
  case_decide; [| done]. intros [= <-]. eauto.
Qed.

(** Two stores at different indices commute, faults included. *)
Lemma wp_store_commute σ f g i j v w :
  i ≠ j →
  wp_store σ f i v ≫= (λ σ', wp_store σ' g j w)
  = wp_store σ g j w ≫= (λ σ', wp_store σ' f i v).
Proof.
  intros Hij. unfold wp_store.
  destruct (σ !! f) as [a|] eqn:Hf, (σ !! g) as [b|] eqn:Hg; simpl.
  - destruct (decide (0 ≤ i < Z.of_nat (length a))) as [Hi|Hi],
             (decide (0 ≤ j < Z.of_nat (length b))) as [Hj|Hj]; simpl;
      destruct (decide (f = g)) as [->|Hfg]; simplify_eq;
      rewrite ?lookup_insert_eq, ?lookup_insert_ne by done;
      rewrite ?Hf, ?Hg; simpl; rewrite ?length_insert;
      rewrite ?decide_True by done; rewrite ?decide_False by done; try done.
    + f_equal. rewrite !insert_insert_eq. f_equal.
      apply list_insert_insert_ne. lia.
    + f_equal. by apply insert_insert_ne.
  - case_decide; simpl; [| done].
    destruct (decide (f = g)) as [->|Hfg]; [congruence |].
    by rewrite lookup_insert_ne, Hg by done.
  - case_decide; simpl; [| done].
    destruct (decide (f = g)) as [->|Hfg]; [congruence |].
    by rewrite lookup_insert_ne, Hf by done.
  - done.
Qed.

End Store.

Section Launch.
Context {S : Type}.
Implicit Types (body : Z → S → option S) (sched : list Z).

Lemma launch_app body s1 s2 σ :
  launch body (s1 ++ s2) σ = launch body s1 σ ≫= launch body s2.
Proof.
  revert σ. induction s1 as [|t s1 IH]; intros σ; simpl; [done |].
  destruct (body t σ); simpl; [apply IH | done].
Qed.

Lemma commutes_sym (f g : S → option S) : commutes f g → commutes g f.
Proof. intros Hc T k σ. symmetry. apply Hc. Qed.

Lemma commutes_ret (g : S → option S) : commutes Some g.
Proof.
  intros T k σ. simpl. destruct (g σ); simpl; done.
Qed.

Lemma commutes_fail (g : S → option S) : commutes (λ _, None) g.
Proof. intros T k σ. simpl. destruct (g σ); simpl; done. Qed.

Lemma commutes_seq (f1 f2 g : S → option S) :
  commutes f1 g → commutes f2 g → commutes (λ σ, f1 σ ≫= f2) g.
Proof.
  intros H1 H2 T k σ.
  transitivity (f1 σ ≫= (λ σ1, g σ1 ≫= (λ σ2, f2 σ2 ≫= k))).
  - destruct (f1 σ) as [σ1|]; simpl; [apply H2 | done].
  - rewrite H1. destruct (g σ) as [σ1|]; simpl; [| done].
    destruct (f1 σ1); simpl; done.
Qed.

Lemma commutes_bind_const {B} (mx : option B) (f : B → S → option S) g :
  (∀ x, mx = Some x → commutes (f x) g) →
  commutes (λ σ, x ← mx; f x σ) g.
Proof.
  intros Hf. destruct mx as [x|]; simpl; [by apply Hf | apply commutes_fail].
Qed.

Lemma commutes_ext (f f' g g' : S → option S) :
  (∀ σ, f σ = f' σ) → (∀ σ, g σ = g' σ) → commutes f' g' → commutes f g.
Proof.
  intros Hf Hg Hc T k σ.
  transitivity (f' σ ≫= (λ σ', g' σ' ≫= k)).
  - apply option_bind_ext; [intros σ'; by rewrite Hg | apply Hf].
  - rewrite Hc. symmetry.
    apply option_bind_ext; [intros σ'; by rewrite Hf | apply Hg].
Qed.

(** Threads that commute pairwise may run in any order. *)
Lemma launch_Permutation body (P : Z → Prop) :
  (∀ t1 t2, P t1 → P t2 → t1 ≠ t2 → commutes (body t1) (body t2)) →
  ∀ s1 s2, s1 ≡ₚ s2 → Forall P s1 → ∀ σ, launch body s1 σ = launch body s2 σ.
Proof.
  intros Hcomm s1 s2 Hperm.
  induction Hperm as [| t s1 s2 _ IH | t1 t2 s | s1 s2 s3 H12 IH1 _ IH2];
    intros HP σ.
  - done.
  - apply Forall_cons in HP as [_ HP].
    simpl. destruct (body t σ); simpl; [by apply IH | done].
  - destruct (decide (t1 = t2)) as [->|Hne]; [done |].
    apply Forall_cons in HP as [H2 [H1 _]%Forall_cons].
    apply (Hcomm t2 t1 H2 H1); congruence.
  - rewrite IH1 by done. apply IH2. by rewrite <- H12.
Qed.

(** Two bodies that agree wherever an invariant of the launch holds give the
    same launch. *)
Lemma launch_ext_invariant (R : S → list Z → Prop) body1 body2 :
  (∀ t s σ, R σ (t :: s) →
     body1 t σ = body2 t σ ∧ ∀ σ', body2 t σ = Some σ' → R σ' s) →
  ∀ s σ, R σ s → launch body1 s σ = launch body2 s σ.
Proof.
  intros Hstep s. induction s as [|t s IH]; intros σ HR; simpl; [done |].
  destruct (Hstep t s σ HR) as [-> Hnext].
  destruct (body2 t σ) as [σ'|]; simpl; [| done]. apply IH. by apply Hnext.
Qed.

End Launch.

Section StoreCommutes.
Context {A : Type}.
Implicit Types (σ : gmap nat (list A)) (a : list A).

Lemma wp_store_commutes f g i j (v w : A) :
  i ≠ j → commutes (λ σ, wp_store σ f i v) (λ σ, wp_store σ g j w).
Proof.
  intros Hij T k σ.
  transitivity ((wp_store σ f i v ≫= λ σ', wp_store σ' g j w) ≫= k);
    [by destruct (wp_store σ f i v) |].
  rewrite wp_store_commute by done. by destruct (wp_store σ g j w).
Qed.

Lemma wp_modify_Some σ f a i x (g : A → A) :
  σ !! f = Some a → 0 ≤ i → a !! Z.to_nat i = Some x →
  wp_modify f i g σ = Some (<[f := <[Z.to_nat i := g x]> a]> σ).
Proof.
  intros Hf Hi Hx. unfold wp_modify.
  rewrite (wp_load_Some _ _ _ _ Hf Hi), Hx. simpl.
  apply wp_store_Some; [done |]. apply lookup_lt_Some in Hx. lia.
Qed.

Lemma wp_modify_None σ f a i (g : A → A) :
  σ !! f = Some a → ¬ (0 ≤ i < Z.of_nat (length a)) → wp_modify f i g σ = None.
Proof.
  intros Hf Hi. unfold wp_modify, wp_load. rewrite Hf. simpl.
  case_decide; [| done].
  destruct (a !! Z.to_nat i) eqn:Hx; [| done].
  apply lookup_lt_Some in Hx. lia.
Qed.

Lemma wp_modify_None_array σ f i (g : A → A) :
  σ !! f = None → wp_modify f i g σ = None.
Proof. intros Hf. unfold wp_modify, wp_load. by rewrite Hf. Qed.

Lemma wp_modify_commutes f i j (g h : A → A) :
  i ≠ j → commutes (wp_modify f i g) (wp_modify f j h).
Proof.
  intros Hij T k σ.
  destruct (σ !! f) as [a|] eqn:Hf;
    [| by rewrite !wp_modify_None_array by done].
  destruct (decide (0 ≤ i < Z.of_nat (length a))) as [Hi|Hi],
           (decide (0 ≤ j < Z.of_nat (length a))) as [Hj|Hj].
  - destruct (lookup_lt_is_Some_2 a (Z.to_nat i)) as [x Hx]; [lia |].
    destruct (lookup_lt_is_Some_2 a (Z.to_nat j)) as [y Hy]; [lia |].
    rewrite (wp_modify_Some σ f a i x), (wp_modify_Some σ f a j y) by (done || lia).
    simpl.
    rewrite (wp_modify_Some _ f (<[Z.to_nat i := g x]> a) j y);
      [| by rewrite lookup_insert_eq | lia | rewrite list_lookup_insert_ne by lia; done].
    rewrite (wp_modify_Some _ f (<[Z.to_nat j := h y]> a) i x);
      [| by rewrite lookup_insert_eq | lia | rewrite list_lookup_insert_ne by lia; done].
    rewrite !insert_insert_eq.
    rewrite (list_insert_insert_ne a (Z.to_nat j) (Z.to_nat i)) by lia. done.
  - destruct (lookup_lt_is_Some_2 a (Z.to_nat i)) as [x Hx]; [lia |].
    rewrite (wp_modify_Some σ f a i x), (wp_modify_None σ f a j) by (done || lia).
    simpl.
    rewrite (wp_modify_None _ f (<[Z.to_nat i := g x]> a) j);
      [done | by rewrite lookup_insert_eq | by rewrite length_insert].
  - destruct (lookup_lt_is_Some_2 a (Z.to_nat j)) as [y Hy]; [lia |].
    rewrite (wp_modify_Some σ f a j y), (wp_modify_None σ f a i) by (done || lia).
    simpl.
    rewrite (wp_modify_None _ f (<[Z.to_nat j := h y]> a) i);
      [done | by rewrite lookup_insert_eq | by rewrite length_insert].
  - by rewrite (wp_modify_None σ f a i), (wp_modify_None σ f a j).
Qed.

End StoreCommutes.

Section Writes.
Context {A : Type}.
Implicit Types (w : Z → option A) (a : list A) (s : list Z).

Lemma writes_cons w t s a :
  writes w (t :: s) a
  = writes w s (match w t with Some x => <[Z.to_nat t := x]> a | None => a end).
Proof. done. Qed.

Lemma length_writes w s a : length (writes w s a) = length a.
Proof.
  revert a. induction s as [|t s IH]; intros a; [done |].
  rewrite writes_cons, IH. destruct (w t); [apply length_insert | done].
Qed.

Lemma writes_lookup_notin w s a i :
  Z.of_nat i ∉ s → (∀ t, t ∈ s → 0 ≤ t) → writes w s a !! i = a !! i.
Proof.
  revert a. induction s as [|t s IH]; intros a Hnot Hs; [done |].
  apply not_elem_of_cons in Hnot as [Hne Hnot].
  assert (0 ≤ t) as Ht by (apply Hs; by left).
  rewrite writes_cons, IH; [| done | intros t' Ht'; apply Hs; by right].
  destruct (w t); [| done].
  apply list_lookup_insert_ne. lia.
Qed.

Lemma writes_lookup_in w s a i :
  Z.of_nat i ∈ s → (∀ t, t ∈ s → 0 ≤ t) → (i < length a)%nat →
  writes w s a !! i = match w (Z.of_nat i) with
                      | Some x => Some x
                      | None => a !! i
                      end.
Proof.
  revert a. induction s as [|t s IH]; intros a Hmem Hs Hlen;
    [by apply elem_of_nil in Hmem |].
  assert (0 ≤ t) as Ht by (apply Hs; by left).
  assert (∀ t', t' ∈ s → 0 ≤ t') as Hs' by (intros t' Ht'; apply Hs; by right).
  rewrite writes_cons.
  destruct (decide (Z.of_nat i ∈ s)) as [Hin|Hnin].
  - rewrite IH; [| done | done | destruct (w t); by rewrite ?length_insert].
    destruct (w (Z.of_nat i)) eqn:Hw; [done |].
    destruct (decide (t = Z.of_nat i)) as [->|Hne]; [by rewrite Hw |].
    destruct (w t); [| done].
    apply list_lookup_insert_ne. lia.
  - assert (t = Z.of_nat i) as ->
      by (by apply elem_of_cons in Hmem as [<-|Hmem]).
    rewrite writes_lookup_notin by done.
    destruct (w (Z.of_nat i)); [| done].
    rewrite Nat2Z.id. by apply list_lookup_insert_eq.
Qed.

(** Threads that each write a value fixed in advance to their own cell of one
    array. *)
Lemma launch_writes (val : Z → option A) f s (σ : gmap nat (list A)) a :
  σ !! f = Some a →
  (∀ t, t ∈ s → 0 ≤ t < Z.of_nat (length a) ∧ is_Some (val t)) →
  launch (λ t σ, h ← val t; wp_store σ f t h) s σ
  = Some (<[f := writes val s a]> σ).
Proof.
  revert σ a. induction s as [|t s IH]; intros σ a Hf Hs.
  - simpl. by rewrite insert_id.
  - destruct (Hs t) as [Ht [h Hh]]; [by left |].
    simpl. rewrite Hh. simpl.
    rewrite (wp_store_Some _ _ _ _ _ Hf Ht). simpl.
    rewrite (IH _ (<[Z.to_nat t := h]> a)).
    + by rewrite insert_insert_eq.
    + by rewrite lookup_insert_eq.
    + intros t' Ht'. rewrite length_insert. apply Hs. by right.
Qed.

End Writes.

(** ** The wave kernels *)

Section Wave.
Context {F : Type} {SF : Scalar F}.
Implicit Types (σ : gmap nat (list F)) (a c p : list F).

Lemma wp_load_ext {A} (σ σ' : gmap nat (list A)) f i :
  σ' !! f = σ !! f → wp_load σ' f i = wp_load σ f i.
Proof. unfold wp_load. by intros ->. Qed.

Lemma sample_ext σ σ' f x y W H :
  σ' !! f = σ !! f → sample σ' f x y W H = sample σ f x y W H.
Proof. intros Hf. unfold sample. by apply wp_load_ext. Qed.

Lemma laplacian_ext σ σ' f x y W H :
  σ' !! f = σ !! f → laplacian σ' f x y W H = laplacian σ f x y W H.
Proof.
  intros Hf. unfold laplacian. by rewrite !(sample_ext σ σ' f) by done.
Qed.

Lemma wave_solve_value_ext σ σ' hp hc W H ic ks kd dt tid :
  σ' !! hc = σ !! hc → wp_load σ' hp tid = wp_load σ hp tid →
  wave_solve_value σ' hp hc W H ic ks kd dt tid
  = wave_solve_value σ hp hc W H ic ks kd dt tid.
Proof.
  intros Hc Hp. unfold wave_solve_value.
  destruct (cell_of tid W) as [[x y]|]; simpl; [| done].
  by rewrite (laplacian_ext σ σ'), (wp_load_ext σ σ' hc), Hp by done.
Qed.

Lemma wave_solve_unfold σ hp hc W H ic ks kd dt tid :
  wave_solve hp hc W H ic ks kd dt tid σ
  = wave_solve_value σ hp hc W H ic ks kd dt tid ≫= wp_store σ hp tid.
Proof.
  unfold wave_solve, wave_solve_value.
  destruct (cell_of tid W) as [[x y]|]; simpl; [| done].
  destruct (laplacian σ hc x y W H); simpl; [| done].
  destruct (wp_load σ hc tid); simpl; [| done].
  destruct (wp_load σ hp tid); simpl; done.
Qed.

Lemma wp_load_store_ne σ σ' f i j (v : F) :
  wp_store σ f i v = Some σ' → i ≠ j → wp_load σ' f j = wp_load σ f j.
Proof.
  intros (a & Hf & Hi & ->)%wp_store_inv Hij. unfold wp_load.
  rewrite lookup_insert_eq, Hf. simpl. case_decide; [| done].
  apply list_lookup_insert_ne. lia.
Qed.

Lemma wp_store_lookup_ne σ σ' f g i (v : F) :
  wp_store σ f i v = Some σ' → f ≠ g → σ' !! g = σ !! g.
Proof.
  intros (a & Hf & Hi & ->)%wp_store_inv Hfg. by apply lookup_insert_ne.
Qed.

(** Within a launch of [wave_solve] on two different arrays, every thread
    computes what it would compute on the store at the entry of the launch. *)
Lemma wave_solve_reads_entry σ0 hp hc W H ic ks kd dt sched :
  hp ≠ hc → NoDup sched →
  launch (wave_solve hp hc W H ic ks kd dt) sched σ0
  = launch (wave_solve_at_entry σ0 hp hc W H ic ks kd dt) sched σ0.
Proof.
  intros Hne Hnd.
  apply (launch_ext_invariant (λ σ s,
    NoDup s ∧ σ !! hc = σ0 !! hc ∧ ∀ t, t ∈ s → wp_load σ hp t = wp_load σ0 hp t));
    [| done].
  intros t s σ (Hnd' & Hc & Hp). apply NoDup_cons in Hnd' as [Ht Hnd'].
  assert (wave_solve_value σ hp hc W H ic ks kd dt t
          = wave_solve_value σ0 hp hc W H ic ks kd dt t) as Hval.
  { apply wave_solve_value_ext; [done |]. apply Hp. by left. }
  split.
  - rewrite wave_solve_unfold. unfold wave_solve_at_entry. by rewrite Hval.
  - intros σ'. unfold wave_solve_at_entry.
    destruct (wave_solve_value σ0 hp hc W H ic ks kd dt t) as [h|]; simpl; [| done].
    intros Hst. split_and!; [done | |].
    + by rewrite (wp_store_lookup_ne _ _ _ _ _ _ Hst).
    + intros t' Ht'. rewrite (wp_load_store_ne _ _ _ _ _ _ Hst) by set_solver.
      apply Hp. by right.
Qed.

Lemma wave_solve_at_entry_commutes σ0 hp hc W H ic ks kd dt t1 t2 :
  t1 ≠ t2 →
  commutes (wave_solve_at_entry σ0 hp hc W H ic ks kd dt t1)
           (wave_solve_at_entry σ0 hp hc W H ic ks kd dt t2).
Proof.
  intros Hne. unfold wave_solve_at_entry.
  apply commutes_bind_const. intros h1 _.
  apply commutes_sym, commutes_bind_const. intros h2 _.
  by apply wp_store_commutes.
Qed.

(** On two different arrays the outcome of a launch of [wave_solve] does not
    depend on the order of its threads. *)
Lemma wave_solve_Permutation σ hp hc W H ic ks kd dt s1 s2 :
  hp ≠ hc → NoDup s1 → s1 ≡ₚ s2 →
  launch (wave_solve hp hc W H ic ks kd dt) s1 σ
  = launch (wave_solve hp hc W H ic ks kd dt) s2 σ.
Proof.
  intros Hne Hnd Hperm.
  rewrite !wave_solve_reads_entry by (done || by rewrite <- Hperm).
  apply (launch_Permutation _ (λ _, True)); [| done | by apply Forall_true].
  intros t1 t2 _ _. apply wave_solve_at_entry_commutes.
Qed.

Lemma wave_displace_unfold σ hc hp W H cx cy r mag t tid :
  wave_displace hc hp W H cx cy r mag t tid σ
  = if decide (W = 0) then None
    else if in_disk W cx cy r tid
         then wp_store σ hc tid (mag * fsin t)%F
                ≫= λ σ', wp_store σ' hp tid (mag * fsin t)%F
         else Some σ.
Proof. unfold wave_displace, cell_of, in_disk. by case_decide. Qed.

Lemma wave_displace_commutes hc hp W H cx cy r mag t t1 t2 :
  t1 ≠ t2 →
  commutes (wave_displace hc hp W H cx cy r mag t t1)
           (wave_displace hc hp W H cx cy r mag t t2).
Proof.
  intros Hne.
  eapply commutes_ext; [intros σ; apply wave_displace_unfold .. |].
  destruct (decide (W = 0)); [apply commutes_fail |].
  assert (∀ i j (g : gmap nat (list F) → option (gmap nat (list F))),
    commutes (λ σ, wp_store σ hc i (mag * fsin t)%F) g →
    commutes (λ σ, wp_store σ hp i (mag * fsin t)%F) g →
    commutes (λ σ, if in_disk W cx cy r j
                   then wp_store σ hc i (mag * fsin t)%F
                          ≫= λ σ', wp_store σ' hp i (mag * fsin t)%F
                   else Some σ) g) as Hif.
  { intros i j g H1 H2. destruct (in_disk W cx cy r j);
      [by apply commutes_seq | apply commutes_ret]. }
  apply (Hif t1 t1); apply commutes_sym, (Hif t2 t2);
    apply wp_store_commutes; congruence.
Qed.

(** The outcome of a launch of [wave_displace] does not depend on the order of
    its threads. *)
Lemma wave_displace_Permutation σ hc hp W H cx cy r mag t s1 s2 :
  s1 ≡ₚ s2 →
  launch (wave_displace hc hp W H cx cy r mag t) s1 σ
  = launch (wave_displace hc hp W H cx cy r mag t) s2 σ.
Proof.
  intros Hperm.
  apply (launch_Permutation _ (λ _, True)); [| done | by apply Forall_true].
  intros t1 t2 _ _. apply wave_displace_commutes.
Qed.

(** *** Launches on a well-formed grid

    The arrays of a [W] by [H] grid hold [W * H] cells. *)

Lemma sample_Some σ f a W H x y :
  1 ≤ W → 1 ≤ H → σ !! f = Some a → length a = Z.to_nat (W * H) →
  ∃ v, sample σ f x y W H = Some v.
Proof.
  intros HW HH Hf Hlen. rewrite (sample_lookup _ _ _ _ _ _ _ HW HH Hf).
  apply lookup_lt_is_Some. rewrite Hlen.
  pose proof (clamp_range x 0 (W - 1)). pose proof (clamp_range y 0 (H - 1)).
  pose proof (cell_index_range (clamp x 0 (W - 1)) (clamp y 0 (H - 1)) W H).
  lia.
Qed.

(** The five-point stencil. *)
Lemma laplacian_stencil σ f a W H x y :
  1 ≤ W → 1 ≤ H → σ !! f = Some a → length a = Z.to_nat (W * H) →
  ∃ e m w s n,
    sample σ f (x + 1) y W H = Some e ∧ sample σ f x y W H = Some m
    ∧ sample σ f (x - 1) y W H = Some w
    ∧ sample σ f x (y + 1) W H = Some s ∧ sample σ f x (y - 1) W H = Some n
    ∧ laplacian σ f x y W H
      = Some ((e - flit 2 * m + w) + (s - flit 2 * m + n))%F.
Proof.
  intros HW HH Hf Hlen.
  destruct (sample_Some σ f a W H (x + 1) y) as [e He]; [done .. |].
  destruct (sample_Some σ f a W H x y) as [m Hm]; [done .. |].
  destruct (sample_Some σ f a W H (x - 1) y) as [w Hw]; [done .. |].
  destruct (sample_Some σ f a W H x (y + 1)) as [s Hs]; [done .. |].
  destruct (sample_Some σ f a W H x (y - 1)) as [n Hn]; [done .. |].
  exists e, m, w, s, n. split_and!; [done .. |].
  unfold laplacian. by rewrite He, Hm, Hw, Hs, Hn.
Qed.

Lemma wave_solve_value_Some σ hp hc c p W H ic ks kd dt tid :
  1 ≤ W → 1 ≤ H → σ !! hc = Some c → σ !! hp = Some p →
  length c = Z.to_nat (W * H) → length p = Z.to_nat (W * H) →
  0 ≤ tid < W * H →
  ∃ lap h1 h0,
    laplacian σ hc (tid `mod` W) (tid `div` W) W H = Some lap
    ∧ c !! Z.to_nat tid = Some h1 ∧ p !! Z.to_nat tid = Some h0
    ∧ wave_solve_value σ hp hc W H ic ks kd dt tid
      = Some (flit 2 * h1 - h0
              + dt * dt * (ks * (lap * ic * ic) - kd * (h1 - h0)))%F.
Proof.
  intros HW HH Hc Hp Hlc Hlp Ht.
  destruct (laplacian_stencil σ hc c W H (tid `mod` W) (tid `div` W))
    as (e & m & w & s & n & _ & _ & _ & _ & _ & Hlap); [done .. |].
  destruct (lookup_lt_is_Some_2 c (Z.to_nat tid)) as [h1 Hh1]; [lia |].
  destruct (lookup_lt_is_Some_2 p (Z.to_nat tid)) as [h0 Hh0]; [lia |].
  eexists _, h1, h0. split_and!; [done .. |].
  unfold wave_solve_value, cell_of. rewrite decide_False by lia. simpl.
  rewrite Hlap. simpl.
  rewrite (wp_load_Some _ _ _ _ Hc), Hh1 by lia. simpl.
  by rewrite (wp_load_Some _ _ _ _ Hp), Hh0 by lia.
Qed.

Lemma schedule_NoDup dim sched : schedule dim sched → NoDup sched.
Proof. unfold schedule. intros ->. apply NoDup_seqZ. Qed.

Lemma schedule_elem_of dim sched t : schedule dim sched → t ∈ sched ↔ 0 ≤ t < dim.
Proof. unfold schedule. intros ->. rewrite elem_of_seqZ. lia. Qed.

Lemma schedule_ascending dim : schedule dim (seqZ 0 dim).
Proof. unfold schedule. reflexivity. Qed.

(** The store a launch of [wave_solve] leaves, over any schedule. *)
Lemma wave_solve_launch σ hp hc c p W H ic ks kd dt sched :
  1 ≤ W → 1 ≤ H → hp ≠ hc → σ !! hc = Some c → σ !! hp = Some p →
  length c = Z.to_nat (W * H) → length p = Z.to_nat (W * H) →
  schedule (W * H) sched →
  launch (wave_solve hp hc W H ic ks kd dt) sched σ
  = Some (<[hp := writes (wave_solve_value σ hp hc W H ic ks kd dt) sched p]> σ).
Proof.
  intros HW HH Hne Hc Hp Hlc Hlp Hs.
  rewrite wave_solve_reads_entry by eauto using schedule_NoDup.
  apply launch_writes; [done |].
  intros t Ht%(schedule_elem_of _ _ _ Hs). split; [lia |].
  destruct (wave_solve_value_Some σ hp hc c p W H ic ks kd dt t)
    as (? & ? & ? & _ & _ & _ & ->); done.
Qed.

(** The store a launch of [wave_displace] leaves, over any schedule. *)
Lemma wave_displace_launch σ hc hp c p W H cx cy r mag t sched :
  W ≠ 0 → hc ≠ hp → σ !! hc = Some c → σ !! hp = Some p →
  (∀ i, i ∈ sched →
        0 ≤ i < Z.of_nat (length c) ∧ 0 ≤ i < Z.of_nat (length p)) →
  let w i := if in_disk W cx cy r i then Some (mag * fsin t)%F else None in
  launch (wave_displace hc hp W H cx cy r mag t) sched σ
  = Some (<[hp := writes w sched p]> (<[hc := writes w sched c]> σ)).
Proof.
  intros HW Hne Hc Hp Hs w. revert σ c p Hc Hp Hs.
  induction sched as [|i sched IH]; intros σ c p Hc Hp Hs.
  - simpl. by rewrite !insert_id by (by rewrite ?insert_id).
  - destruct (Hs i) as [Hic Hip]; [by left |].
    rewrite !writes_cons. cbn [launch].
    rewrite wave_displace_unfold, decide_False by done. subst w. cbn beta.
    destruct (in_disk W cx cy r i); cbn [mbind option_bind].
    + rewrite (wp_store_Some _ _ _ _ _ Hc Hic). simpl.
      rewrite (wp_store_Some _ _ p) by (by rewrite ?lookup_insert_ne). simpl.
      rewrite (IH _ (<[Z.to_nat i := (mag * fsin t)%F]> c)
                    (<[Z.to_nat i := (mag * fsin t)%F]> p)).
      * f_equal. rewrite (insert_insert_ne _ hp hc) by done.
        rewrite insert_insert_eq, (insert_insert_ne _ hc hp) by done.
        by rewrite !insert_insert_eq.
      * by rewrite lookup_insert_ne, lookup_insert_eq.
      * by rewrite lookup_insert_eq.
      * intros j Hj. rewrite !length_insert. apply Hs. by right.
    + apply IH; [done | done |]. intros j Hj. apply Hs. by right.
Qed.

(** The cells a launch of [wave_solve] writes. *)
Lemma wave_solve_cells σ hp hc c p W H ic ks kd dt sched :
  1 ≤ W → 1 ≤ H → hp ≠ hc → σ !! hc = Some c → σ !! hp = Some p →
  length c = Z.to_nat (W * H) → length p = Z.to_nat (W * H) →
  schedule (W * H) sched →
  ∃ p',
    launch (wave_solve hp hc W H ic ks kd dt) sched σ = Some (<[hp := p']> σ)
    ∧ <[hp := p']> σ !! hc = Some c
    ∧ length p' = length p
    ∧ ∀ i, 0 ≤ i < W * H →
        let x := i `mod` W in
        let y := i `div` W in
        ∃ e m w s n h1 h0,
          sample σ hc (x + 1) y W H = Some e ∧ sample σ hc x y W H = Some m
          ∧ sample σ hc (x - 1) y W H = Some w
          ∧ sample σ hc x (y + 1) W H = Some s
          ∧ sample σ hc x (y - 1) W H = Some n
          ∧ c !! Z.to_nat i = Some h1 ∧ p !! Z.to_nat i = Some h0
          ∧ p' !! Z.to_nat i
            = Some (flit 2 * h1 - h0
                    + dt * dt
                      * (ks * (((e - flit 2 * m + w) + (s - flit 2 * m + n))
                               * ic * ic)
                         - kd * (h1 - h0)))%F.
Proof.
  intros HW HH Hne Hc Hp Hlc Hlp Hs.
  eexists. split; [by eapply wave_solve_launch |].
  split; [by rewrite lookup_insert_ne |].
  split; [apply length_writes |].
  intros i Hi x y.
  destruct (laplacian_stencil σ hc c W H x y)
    as (e & m & w & s & n & He & Hm & Hw & Hs' & Hn & Hlap); [done .. |].
  destruct (wave_solve_value_Some σ hp hc c p W H ic ks kd dt i)
    as (lap & h1 & h0 & Hlap' & Hh1 & Hh0 & Hval); [done .. |].
  fold x y in Hlap'. rewrite Hlap in Hlap'. injection Hlap' as <-.
  exists e, m, w, s, n, h1, h0. split_and!; [done .. |].
  replace i with (Z.of_nat (Z.to_nat i)) in Hval by lia.
  rewrite writes_lookup_in, Hval; [done | | |].
  - apply (schedule_elem_of _ _ _ Hs). lia.
  - intros t Ht%(schedule_elem_of _ _ _ Hs). lia.
  - lia.
Qed.

(** C1 (amended). On a [W] by [H] grid with two different arrays of [W * H]
    cells, a launch of [wave_solve], in whatever order its threads run, leaves
    the current array and every other array as they were and writes to cell
    [i] of the previous array
    [2*h1 - h0 + dt*dt*(k_speed*l - k_damp*(h1 - h0))], where [h1] and [h0]
    are cell [i] of the current and of the previous array at the entry of the
    launch and [l] is the five-point stencil of the clamped samples around
    [(i mod W, i div W)], multiplied twice by [inv_cell]. *)
Theorem wave_solve_spec σ hp hc c p W H ic ks kd dt sched :
  1 ≤ W → 1 ≤ H → hp ≠ hc → σ !! hc = Some c → σ !! hp = Some p →
  length c = Z.to_nat (W * H) → length p = Z.to_nat (W * H) →
  schedule (W * H) sched →
  ∃ p',
    launch (wave_solve hp hc W H ic ks kd dt) sched σ = Some (<[hp := p']> σ)
    ∧ <[hp := p']> σ !! hc = Some c
    ∧ length p' = length p
    ∧ ∀ i, 0 ≤ i < W * H →
        let x := i `mod` W in
        let y := i `div` W in
        ∃ e m w s n h1 h0,
          sample σ hc (x + 1) y W H = Some e ∧ sample σ hc x y W H = Some m
          ∧ sample σ hc (x - 1) y W H = Some w
          ∧ sample σ hc x (y + 1) W H = Some s
          ∧ sample σ hc x (y - 1) W H = Some n
          ∧ c !! Z.to_nat i = Some h1 ∧ p !! Z.to_nat i = Some h0
          ∧ p' !! Z.to_nat i
            = Some (flit 2 * h1 - h0
                    + dt * dt
                      * (ks * (((e - flit 2 * m + w) + (s - flit 2 * m + n))
                               * ic * ic)
                         - kd * (h1 - h0)))%F.
Proof. exact (wave_solve_cells σ hp hc c p W H ic ks kd dt sched). Qed.

(** C4. Whatever the order of the threads, a launch of [wave_solve] on two
    different arrays gives what running the threads in ascending order gives
    when each reads the store as it stood at the entry of the launch, and a
    launch of [wave_displace] gives what ascending order gives; on a
    well-formed grid both launches complete. *)
Theorem launch_order_independent σ hp hc c p W H ic ks kd dt cx cy r mag t sched :
  1 ≤ W → 1 ≤ H → hp ≠ hc → σ !! hc = Some c → σ !! hp = Some p →
  length c = Z.to_nat (W * H) → length p = Z.to_nat (W * H) →
  schedule (W * H) sched →
  (launch (wave_solve hp hc W H ic ks kd dt) sched σ
   = launch (wave_solve_at_entry σ hp hc W H ic ks kd dt) (seqZ 0 (W * H)) σ
   ∧ is_Some (launch (wave_solve hp hc W H ic ks kd dt) sched σ))
  ∧ (launch (wave_displace hc hp W H cx cy r mag t) sched σ
     = launch (wave_displace hc hp W H cx cy r mag t) (seqZ 0 (W * H)) σ
     ∧ is_Some (launch (wave_displace hc hp W H cx cy r mag t) sched σ)).
Proof.
  intros HW HH Hne Hc Hp Hlc Hlp Hs. split; split.
  - rewrite (wave_solve_Permutation σ hp hc W H ic ks kd dt sched (seqZ 0 (W * H)))
      by eauto using schedule_NoDup.
    apply wave_solve_reads_entry; [done | apply NoDup_seqZ].
  - by erewrite wave_solve_launch.
  - by apply wave_displace_Permutation.
  - erewrite wave_displace_launch; [done | lia | done .. |].
    intros i Hi%(schedule_elem_of _ _ _ Hs). lia.
Qed.

(** The cells a launch of [wave_displace] stamps. *)
Lemma wave_displace_cells σ hc hp c p W H cx cy r mag t sched :
  1 ≤ W → 1 ≤ H → hc ≠ hp → σ !! hc = Some c → σ !! hp = Some p →
  length c = Z.to_nat (W * H) → length p = Z.to_nat (W * H) →
  schedule (W * H) sched →
  ∃ c' p',
    launch (wave_displace hc hp W H cx cy r mag t) sched σ
    = Some (<[hp := p']> (<[hc := c']> σ))
    ∧ length c' = length c ∧ length p' = length p
    ∧ ∀ i, 0 ≤ i < W * H →
        if in_disk W cx cy r i
        then c' !! Z.to_nat i = Some (mag * fsin t)%F
             ∧ p' !! Z.to_nat i = Some (mag * fsin t)%F
        else c' !! Z.to_nat i = c !! Z.to_nat i
             ∧ p' !! Z.to_nat i = p !! Z.to_nat i.
Proof.
  intros HW HH Hne Hc Hp Hlc Hlp Hs.
  eexists _, _. split.
  { apply wave_displace_launch; [lia | done .. |].
    intros i Hi%(schedule_elem_of _ _ _ Hs). lia. }
  rewrite !length_writes. split_and!; [done .. |].
  intros i Hi.
  assert (Z.of_nat (Z.to_nat i) ∈ sched) as Hin
    by (apply (schedule_elem_of _ _ _ Hs); lia).
  assert (∀ t', t' ∈ sched → 0 ≤ t') as Hpos
    by (intros t' Ht'%(schedule_elem_of _ _ _ Hs); lia).
  rewrite !writes_lookup_in by (done || lia).
  rewrite Z2Nat.id by lia. by destruct (in_disk W cx cy r i).
Qed.

End Wave.

(** ** The mesh update and the swap *)

Section Mesh.
Context {F : Type} {SF : Scalar F}.
Implicit Types (σ : gmap nat (list F)) (ν : gmap nat (list (vec3 F))).
Implicit Types (hs : list F) (vs : list (vec3 F)).

Lemma grid_update_unfold σ ν heights vertices tid :
  grid_update heights vertices tid σ ν
  = h ← wp_load σ heights tid;
    wp_modify vertices tid (λ v : vec3 F, (v.1.1, h, v.2)) ν.
Proof. done. Qed.

Lemma grid_update_commutes σ heights vertices t1 t2 :
  t1 ≠ t2 →
  commutes (λ ν, grid_update heights vertices t1 σ ν)
           (λ ν, grid_update heights vertices t2 σ ν).
Proof.
  intros Hne.
  apply (commutes_bind_const (wp_load σ heights t1)
           (λ h, wp_modify vertices t1 (λ v : vec3 F, (v.1.1, h, v.2)))).
  intros h1 _. apply commutes_sym.
  apply (commutes_bind_const (wp_load σ heights t2)
           (λ h, wp_modify vertices t2 (λ v : vec3 F, (v.1.1, h, v.2)))).
  intros h2 _. apply wp_modify_commutes. congruence.
Qed.

(** The outcome of a launch of [grid_update] does not depend on the order of
    its threads. *)
Lemma grid_update_Permutation σ ν heights vertices s1 s2 :
  s1 ≡ₚ s2 →
  launch (λ tid ν, grid_update heights vertices tid σ ν) s1 ν
  = launch (λ tid ν, grid_update heights vertices tid σ ν) s2 ν.
Proof.
  intros Hperm.
  apply (launch_Permutation _ (λ _, True)); [| done | by apply Forall_true].
  intros t1 t2 _ _. apply grid_update_commutes.
Qed.

Lemma raised_cons hs t s vs :
  raised hs (t :: s) vs
  = raised hs s (match hs !! Z.to_nat t with
                 | Some h => alter (λ v : vec3 F, (v.1.1, h, v.2)) (Z.to_nat t) vs
                 | None => vs
                 end).
Proof. done. Qed.

Lemma length_raised hs s vs : length (raised hs s vs) = length vs.
Proof.
  revert vs. induction s as [|t s IH]; intros vs; [done |].
  rewrite raised_cons, IH. destruct (hs !! Z.to_nat t); [apply length_alter | done].
Qed.

Lemma raised_lookup_notin hs s vs i :
  Z.of_nat i ∉ s → (∀ t, t ∈ s → 0 ≤ t) → raised hs s vs !! i = vs !! i.
Proof.
  revert vs. induction s as [|t s IH]; intros vs Hnot Hs; [done |].
  apply not_elem_of_cons in Hnot as [Hne Hnot].
  assert (0 ≤ t) as Ht by (apply Hs; by left).
  rewrite raised_cons, IH; [| done | intros t' Ht'; apply Hs; by right].
  destruct (hs !! Z.to_nat t); [| done].
  apply list_lookup_alter_ne. lia.
Qed.

Lemma raised_lookup_in hs s vs i h :
  NoDup s → Z.of_nat i ∈ s → (∀ t, t ∈ s → 0 ≤ t) → hs !! i = Some h →
  raised hs s vs !! i = (λ v : vec3 F, (v.1.1, h, v.2)) <$> vs !! i.
Proof.
  revert vs. induction s as [|t s IH]; intros vs Hnd Hmem Hs Hh;
    [by apply elem_of_nil in Hmem |].
  apply NoDup_cons in Hnd as [Hfresh Hnd].
  assert (0 ≤ t) as Ht by (apply Hs; by left).
  assert (∀ t', t' ∈ s → 0 ≤ t') as Hs' by (intros t' Ht'; apply Hs; by right).
  rewrite raised_cons.
  apply elem_of_cons in Hmem as [<-|Hmem].
  - rewrite raised_lookup_notin by done.
    rewrite Nat2Z.id, Hh. apply list_lookup_alter_eq.
  - rewrite IH by done.
    destruct (hs !! Z.to_nat t); [| done].
    rewrite list_lookup_alter_ne; [done |].
    intros Heq. apply Hfresh. replace t with (Z.of_nat i) by lia. done.
Qed.

(** The vertex store a launch of [grid_update] leaves. *)
Lemma grid_update_launch σ ν heights vertices hs vs sched :
  σ !! heights = Some hs → ν !! vertices = Some vs →
  (∀ t, t ∈ sched →
        0 ≤ t < Z.of_nat (length hs) ∧ 0 ≤ t < Z.of_nat (length vs)) →
  launch (λ tid ν, grid_update heights vertices tid σ ν) sched ν
  = Some (<[vertices := raised hs sched vs]> ν).
Proof.
  intros Hh. revert ν vs. induction sched as [|t s IH]; intros ν vs Hv Hs.
  - simpl. by rewrite insert_id.
  - destruct (Hs t) as [Hth Htv]; [by left |].
    destruct (lookup_lt_is_Some_2 hs (Z.to_nat t)) as [h Hht]; [lia |].
    destruct (lookup_lt_is_Some_2 vs (Z.to_nat t)) as [v Hvt]; [lia |].
    rewrite raised_cons, Hht. cbn [launch].
    rewrite grid_update_unfold, (wp_load_Some _ _ _ _ Hh), Hht by lia.
    cbn [mbind option_bind].
    rewrite (wp_modify_Some _ _ _ _ _ _ Hv) by (done || lia).
    cbn [mbind option_bind].
    rewrite (IH _ (<[Z.to_nat t := (v.1.1, h, v.2)]> vs)).
    + rewrite insert_insert_eq. do 3 f_equal.
      apply list_eq. intros j. destruct (decide (j = Z.to_nat t)) as [->|Hj].
      * rewrite list_lookup_insert_eq by lia.
        by rewrite list_lookup_alter_eq, Hvt.
      * by rewrite list_lookup_insert_ne, list_lookup_alter_ne by done.
    + by rewrite lookup_insert_eq.
    + intros t' Ht'. rewrite length_insert. apply Hs. by right.
Qed.

(** C9. A launch of [grid_update] over [n] heights and [n] vertices, in
    whatever order its threads run, replaces vertex [i] = [(x, y, z)] by
    [(x, heights[i], z)]: the first and the third component stay, the second
    becomes the height of the same index; no other array changes. *)
Theorem grid_update_spec σ ν heights vertices hs vs n sched :
  σ !! heights = Some hs → ν !! vertices = Some vs →
  length hs = Z.to_nat n → length vs = Z.to_nat n → schedule n sched →
  ∃ vs',
    launch (λ tid ν, grid_update heights vertices tid σ ν) sched ν
    = Some (<[vertices := vs']> ν)
    ∧ length vs' = length vs
    ∧ ∀ i, 0 ≤ i < n →
        ∃ x y z h,
          vs !! Z.to_nat i = Some (x, y, z) ∧ hs !! Z.to_nat i = Some h
          ∧ vs' !! Z.to_nat i = Some (x, h, z).
Proof.
  intros Hh Hv Hlh Hlv Hs.
  exists (raised hs sched vs). split_and!.
  - apply grid_update_launch; [done .. |].
    intros t Ht%(schedule_elem_of _ _ _ Hs). lia.
  - apply length_raised.
  - intros i Hi.
    destruct (lookup_lt_is_Some_2 hs (Z.to_nat i)) as [h Hhi]; [lia |].
    destruct (lookup_lt_is_Some_2 vs (Z.to_nat i)) as [[[x y] z] Hvi]; [lia |].
    exists x, y, z, h. split_and!; [done .. |].
    rewrite (raised_lookup_in hs sched vs (Z.to_nat i) h), Hvi; [done | | | | done].
    + by eapply schedule_NoDup.
    + apply (schedule_elem_of _ _ _ Hs). lia.
    + intros t Ht%(schedule_elem_of _ _ _ Hs). lia.
Qed.

(** C5. The swap of the script exchanges the two references and nothing
    else: both stores, the clock and every array are what they were, what
    [sim_grid1] named is now named by [sim_grid0] and conversely, and a second
    swap restores the labels. *)
Theorem swap_grids_relabels (st : @host F) :
  device (swap_grids st) = device st
  ∧ vdevice (swap_grids st) = vdevice st
  ∧ sim_grid0 (swap_grids st) = sim_grid1 st
  ∧ sim_grid1 (swap_grids st) = sim_grid0 st
  ∧ device (swap_grids st) !! sim_grid0 (swap_grids st) = device st !! sim_grid1 st
  ∧ device (swap_grids st) !! sim_grid1 (swap_grids st) = device st !! sim_grid0 st
  ∧ swap_grids (swap_grids st) = st.
Proof. by destruct st. Qed.

End Mesh.

(** ** The script *)

Section Script.
Context {F : Type} {SF : Scalar F}.
Implicit Types (st : @host F) (cfg : @params F) (o : oracle).

Lemma repeat_outcome_ext {A} (I : A → Prop) (f g : A → outcome A) n a :
  (∀ a, I a → f a = g a) → (∀ a a', I a → g a = Ok a' → I a') → I a →
  repeat_outcome n f a = repeat_outcome n g a.
Proof.
  intros Hfg Hinv. revert a. induction n as [|n IH]; intros a Ha; simpl; [done |].
  rewrite Hfg by done. destruct (g a) as [a'|] eqn:Hg; [| done].
  apply IH. by eapply Hinv.
Qed.

Lemma repeat_outcome_invariant {A} (I : A → Prop) (g : A → outcome A) n a a' :
  (∀ a a', I a → g a = Ok a' → I a') → I a →
  repeat_outcome n g a = Ok a' → I a'.
Proof.
  intros Hinv. revert a. induction n as [|n IH]; intros a Ha; simpl.
  - by intros [= <-].
  - destruct (g a) as [a1|] eqn:Hg; [| done]. apply IH. by eapply Hinv.
Qed.

Lemma fair_NoDup o k dim : fair o → NoDup (o k dim).
Proof. intros Ho. eapply schedule_NoDup, Ho. Qed.

Lemma integrate_any_order o cfg ic dt st :
  fair o → sim_grid0 st ≠ sim_grid1 st →
  integrate o cfg ic dt st = integrate ascending cfg ic dt st.
Proof.
  intros Ho Hne. unfold integrate.
  by rewrite (wave_solve_Permutation _ _ _ _ _ _ _ _ _
                (o (launched st) (sim_width cfg * sim_height cfg))
                (ascending (launched st) (sim_width cfg * sim_height cfg)))
    by (done || apply fair_NoDup, Ho || apply Ho).
Qed.

(** An integration that completes has exchanged the two references. *)
Lemma integrate_grids o cfg ic dt st st' :
  integrate o cfg ic dt st = Ok st' →
  sim_grid0 st' = sim_grid1 st ∧ sim_grid1 st' = sim_grid0 st
  ∧ sim_host st' = sim_host st ∧ verts_host st' = verts_host st.
Proof.
  unfold integrate. destruct (launch _ _ (device st)) as [σ|]; [| done].
  by intros [= <-].
Qed.

(** A substep does not depend on the order of the threads of its launches. *)
Lemma substep_any_order o cfg dt st :
  fair o → sim_grid0 st ≠ sim_grid1 st →
  substep o cfg dt st = substep ascending cfg dt st.
Proof.
  intros Ho Hne. unfold substep.
  rewrite (wave_displace_Permutation _ _ _ _ _ _ _ _ _ _
             (o (launched st) (sim_width cfg * sim_height cfg))
             (ascending (launched st) (sim_width cfg * sim_height cfg)))
    by apply Ho.
  destruct (launch _ (ascending _ _) (device st)) as [σ1|]; [| done].
  destruct (py_div (flit 1) (grid_size cfg)) as [inv_cell|]; [| done].
  by rewrite integrate_any_order.
Qed.

(** A substep that completes has exchanged the two references. *)
Lemma substep_grids o cfg dt st st' :
  substep o cfg dt st = Ok st' →
  sim_grid0 st' = sim_grid1 st ∧ sim_grid1 st' = sim_grid0 st
  ∧ sim_host st' = sim_host st ∧ verts_host st' = verts_host st.
Proof.
  unfold substep.
  destruct (launch _ _ (device st)) as [σ1|]; [| done].
  destruct (py_div (flit 1) (grid_size cfg)) as [inv_cell|]; [| done].
  destruct (integrate _ _ _ _ _) as [st2|] eqn:Hint; [| done].
  apply integrate_grids in Hint. by intros [= <-].
Qed.

Lemma substeps_any_order o cfg dt n st :
  fair o → sim_grid0 st ≠ sim_grid1 st →
  repeat_outcome n (substep o cfg dt) st
  = repeat_outcome n (substep ascending cfg dt) st.
Proof.
  intros Ho Hne.
  apply (repeat_outcome_ext (λ st, sim_grid0 st ≠ sim_grid1 st)); [| | done].
  - intros st1 H1. by apply substep_any_order.
  - intros st1 st2 H1 (-> & -> & _)%substep_grids. congruence.
Qed.

Lemma substeps_distinct o cfg dt n st st' :
  sim_grid0 st ≠ sim_grid1 st →
  repeat_outcome n (substep o cfg dt) st = Ok st' →
  sim_grid0 st' ≠ sim_grid1 st'.
Proof.
  intros Hne.
  apply (repeat_outcome_invariant (λ st, sim_grid0 st ≠ sim_grid1 st)); [| done].
  intros st1 st2 H1 (-> & -> & _)%substep_grids. congruence.
Qed.

(** A frame does not depend on the order of the threads of its launches. *)
Lemma frame_any_order o cfg dt st :
  fair o → sim_grid0 st ≠ sim_grid1 st →
  frame o cfg dt st = frame ascending cfg dt st.
Proof.
  intros Ho Hne. unfold frame. rewrite substeps_any_order by done.
  destruct (repeat_outcome _ _ st) as [st1|]; [| done].
  destruct (wp_copy _ _ _) as [σ|]; [| done].
  by rewrite (grid_update_Permutation σ (vdevice st1) (sim_host st1) (verts_host st1)
                (o (launched st1) (sim_width cfg * sim_height cfg))
                (ascending (launched st1) (sim_width cfg * sim_height cfg)))
    by apply Ho.
Qed.

Lemma frame_distinct o cfg dt st st' :
  sim_grid0 st ≠ sim_grid1 st → frame o cfg dt st = Ok st' →
  sim_grid0 st' ≠ sim_grid1 st'.
Proof.
  intros Hne. unfold frame.
  destruct (repeat_outcome _ _ st) as [st1|] eqn:Hst1; [| done].
  apply substeps_distinct in Hst1; [| done].
  destruct (wp_copy _ _ _) as [σ|]; [| done].
  destruct (launch _ _ (vdevice st1)) as [ν|]; [| done].
  destruct (centre st1); [| done].
  by intros [= <-].
Qed.

Lemma frames_any_order o cfg dt n st :
  fair o → sim_grid0 st ≠ sim_grid1 st →
  repeat_outcome n (frame o cfg dt) st
  = repeat_outcome n (frame ascending cfg dt) st.
Proof.
  intros Ho Hne.
  apply (repeat_outcome_ext (λ st, sim_grid0 st ≠ sim_grid1 st)); [| | done].
  - intros st1 H1. by apply frame_any_order.
  - intros st1 st2 H1 H2. by eapply frame_distinct.
Qed.

Lemma setup_distinct cfg n dt st :
  setup cfg = Ok (n, dt, st) → sim_grid0 st ≠ sim_grid1 st.
Proof.
  unfold setup.
  destruct (ftrunc _) as [frames|]; [| done].
  destruct (py_div _ _) as [q|]; [| done].
  destruct (py_div_int _ _) as [e|sim_dt]; [done |].
  destruct (wp_zeros _ _) as [grid|]; [| done].
  destruct (wp_zeros _ _) as [verts|]; [| done].
  by intros [= <- <- <-].
Qed.

Lemma run_any_order o cfg : fair o → run o cfg = run ascending cfg.
Proof.
  intros Ho. unfold run.
  destruct (setup cfg) as [[[n dt] st]|] eqn:Hsetup; [| done].
  apply frames_any_order; [done |]. by eapply setup_distinct.
Qed.

(** C7. Two runs with the same parameters give the same outcome, whatever
    order the threads of each launch run in: the whole script from its own
    zero buffers, and the substeps and the frames from any state whose two
    grids are different arrays.  The centre of a substep is a function of the
    clock and of the grid size alone. *)
Theorem run_deterministic o1 o2 cfg :
  fair o1 → fair o2 →
  run o1 cfg = run o2 cfg
  ∧ (∀ dt n st, sim_grid0 st ≠ sim_grid1 st →
       repeat_outcome n (substep o1 cfg dt) st
       = repeat_outcome n (substep o2 cfg dt) st)
  ∧ (∀ dt n st, sim_grid0 st ≠ sim_grid1 st →
       repeat_outcome n (frame o1 cfg dt) st
       = repeat_outcome n (frame o2 cfg dt) st).
Proof.
  intros H1 H2. split_and!.
  - by rewrite (run_any_order o1), (run_any_order o2).
  - intros dt n st Hne.
    by rewrite (substeps_any_order o1), (substeps_any_order o2).
  - intros dt n st Hne.
    by rewrite (frames_any_order o1), (frames_any_order o2).
Qed.

(** C8 (amended). A frame rate of zero, and a substep count that is zero or
    too large to convert to a float, make the set-up of the script raise
    before any kernel is launched: the exception reaches the caller with no
    launch counted. *)
Theorem setup_raises o cfg :
  fis_zero (sim_fps cfg) = true ∨ sim_substeps cfg = 0
  ∨ fis_finite (of_int (sim_substeps cfg)) = false →
  ∃ e, run o cfg = Raised e 0.
Proof.
  intros Hbad. unfold run, setup.
  destruct (ftrunc _) as [frames|]; [| by eexists].
  unfold py_div. destruct (fis_zero (sim_fps cfg)) eqn:Hfps; [by eexists |].
  unfold py_div_int, py_float.
  destruct (fis_finite (of_int (sim_substeps cfg))) eqn:Hfin; [| by eexists].
  destruct Hbad as [? | [Hsub | ?]]; [done | | done].
  rewrite decide_True by done. by eexists.
Qed.

End Script.

(** ** The flat field

    What keeps a field of zeros at zero is stated once for any scalar
    arithmetic in which zeros are closed under sums and differences and absorb
    the finite values under products. *)

Section ZeroField.
Context {F : Type} {SF : Scalar F}.
Variables (zero finite : F → Prop).
Hypothesis zero_add : ∀ x y, zero x → zero y → zero (x + y)%F.
Hypothesis zero_sub : ∀ x y, zero x → zero y → zero (x - y)%F.
Hypothesis zero_mul_l : ∀ x y, zero x → finite y → zero (x * y)%F.
Hypothesis zero_mul_r : ∀ x y, finite x → zero y → zero (x * y)%F.
Hypothesis finite_two : finite (flit 2).
Implicit Types (σ : gmap nat (list F)) (c p : list F).
Implicit Types (st : @host F) (cfg : @params F) (o : oracle).

Lemma sample_Forall σ f c W H x y v :
  1 ≤ W → 1 ≤ H → σ !! f = Some c → Forall zero c →
  sample σ f x y W H = Some v → zero v.
Proof.
  intros HW HH Hf Hc. rewrite (sample_lookup _ _ _ _ _ _ _ HW HH Hf).
  by apply Forall_lookup_1.
Qed.

Lemma wave_solve_zero σ hp hc c p W H ic ks kd dt sched :
  1 ≤ W → 1 ≤ H → hp ≠ hc → σ !! hc = Some c → σ !! hp = Some p →
  length c = Z.to_nat (W * H) → length p = Z.to_nat (W * H) →
  Forall zero c → Forall zero p →
  finite ic → finite ks → finite kd → finite (dt * dt)%F →
  schedule (W * H) sched →
  ∃ p', launch (wave_solve hp hc W H ic ks kd dt) sched σ = Some (<[hp := p']> σ)
        ∧ length p' = length p ∧ Forall zero p'.
Proof.
  intros HW HH Hne Hc Hp Hlc Hlp Hzc Hzp Hic Hks Hkd Hdt Hs.
  destruct (wave_solve_cells σ hp hc c p W H ic ks kd dt sched)
    as (p' & Hl & _ & Hlen & Hcells); [done .. |].
  exists p'. split_and!; [done .. |].
  apply Forall_lookup_2. intros i v Hv.
  assert (0 ≤ Z.of_nat i < W * H) as Hi
    by (apply lookup_lt_Some in Hv; lia).
  destruct (Hcells _ Hi)
    as (e & m & w & s & n & h1 & h0 & He & Hm & Hw & Hs' & Hn & Hh1 & Hh0 & Hp').
  rewrite Nat2Z.id in Hh1, Hh0, Hp'. rewrite Hv in Hp'. injection Hp' as ->.
  assert (zero e ∧ zero m ∧ zero w ∧ zero s ∧ zero n) as (? & ? & ? & ? & ?)
    by (split_and!; by eapply (sample_Forall σ hc c W H)).
  assert (zero h1) by apply (Forall_lookup_1 _ _ _ _ Hzc Hh1).
  assert (zero h0) by apply (Forall_lookup_1 _ _ _ _ Hzp Hh0).
  auto 20.
Qed.

Lemma wave_displace_zero σ hc hp c p W H cx cy r mag t sched :
  1 ≤ W → 1 ≤ H → hc ≠ hp → σ !! hc = Some c → σ !! hp = Some p →
  length c = Z.to_nat (W * H) → length p = Z.to_nat (W * H) →
  Forall zero c → Forall zero p → zero (mag * fsin t)%F →
  schedule (W * H) sched →
  ∃ c' p',
    launch (wave_displace hc hp W H cx cy r mag t) sched σ
    = Some (<[hp := p']> (<[hc := c']> σ))
    ∧ length c' = length c ∧ length p' = length p
    ∧ Forall zero c' ∧ Forall zero p'.
Proof.
  intros HW HH Hne Hc Hp Hlc Hlp Hzc Hzp Hh Hs.
  destruct (wave_displace_cells σ hc hp c p W H cx cy r mag t sched)
    as (c' & p' & Hl & Hlc' & Hlp' & Hcells); [done .. |].
  assert (∀ i v, c' !! i = Some v ∨ p' !! i = Some v → zero v) as Hall.
  { intros i v Hv.
    assert (0 ≤ Z.of_nat i < W * H) as Hi
      by (destruct Hv as [Hv|Hv]; apply lookup_lt_Some in Hv; lia).
    specialize (Hcells _ Hi). rewrite Nat2Z.id in Hcells.
    destruct (in_disk W cx cy r (Z.of_nat i)), Hcells as [Hc' Hp''].
    - assert (v = (mag * fsin t)%F) as -> by (destruct Hv; congruence). done.
    - destruct Hv as [Hv|Hv].
      + rewrite Hc' in Hv. apply (Forall_lookup_1 _ _ _ _ Hzc Hv).
      + rewrite Hp'' in Hv. apply (Forall_lookup_1 _ _ _ _ Hzp Hv). }
  exists c', p'. split_and!; [done .. | |];
    apply Forall_lookup_2; intros i v Hv; apply (Hall i v); auto.
Qed.


Lemma integrate_zero o cfg ic dt st :
  fair o → 1 ≤ sim_width cfg → 1 ≤ sim_height cfg →
  finite ic → finite (k_speed cfg) → finite (k_damp cfg) → finite (dt * dt)%F →
  grids_satisfy zero cfg st →
  ∃ st', integrate o cfg ic dt st = Ok st' ∧ grids_satisfy zero cfg st'
         ∧ sim_time st' = sim_time st.
Proof.
  intros Ho HW HH Hic Hks Hkd Hdt (Hne & a & b & Ha & Hb & Hla & Hlb & Hza & Hzb).
  destruct (wave_solve_zero (device st) (sim_grid0 st) (sim_grid1 st) b a
              (sim_width cfg) (sim_height cfg) ic (k_speed cfg) (k_damp cfg) dt
              (o (launched st) (sim_width cfg * sim_height cfg)))
    as (a' & Hl & Hla' & Hza'); [done .. | apply Ho |].
  unfold integrate. rewrite Hl. eexists. split; [done |].
  split; [| done]. split; [simpl; congruence |].
  exists b, a'. simpl.
  rewrite lookup_insert_eq, lookup_insert_ne by done.
  split_and!; [done | done | done | congruence | done | done].
Qed.

Lemma substep_zero o cfg ic dt st :
  fair o → 1 ≤ sim_width cfg → 1 ≤ sim_height cfg →
  py_div (flit 1) (grid_size cfg) = Some ic →
  finite ic → finite (k_speed cfg) → finite (k_damp cfg) → finite (dt * dt)%F →
  zero (grid_displace cfg * fsin (- fpi * flit 0.5))%F →
  grids_satisfy zero cfg st →
  ∃ st', substep o cfg dt st = Ok st' ∧ grids_satisfy zero cfg st'.
Proof.
  intros Ho HW HH Hdiv Hic Hks Hkd Hdt Hmag
    (Hne & a & b & Ha & Hb & Hla & Hlb & Hza & Hzb).
  unfold substep.
  destruct (wave_displace_zero (device st) (sim_grid0 st) (sim_grid1 st) a b
              (sim_width cfg) (sim_height cfg)
              (center (sim_width cfg) (fsin (sim_time st)))
              (center (sim_height cfg) (fcos (sim_time st)))
              (flit 10) (grid_displace cfg) (- fpi * flit 0.5)%F
              (o (launched st) (sim_width cfg * sim_height cfg)))
    as (a' & b' & -> & Hla' & Hlb' & Hza' & Hzb'); [done .. | apply Ho |].
  rewrite Hdiv.
  destruct (integrate_zero o cfg ic dt
              (with_device
                 (bind_centre st (center (sim_width cfg) (fsin (sim_time st)))
                    (center (sim_height cfg) (fcos (sim_time st))))
                 (<[sim_grid1 st := b']> (<[sim_grid0 st := a']> (device st)))
                 (S (launched st))))
    as (st2 & -> & (Hne2 & Hz2) & _); [done .. | |].
  - split; [done |]. exists a', b'. simpl.
    rewrite lookup_insert_eq, lookup_insert_ne, lookup_insert_eq by done.
    split_and!; [done | done | congruence | congruence | done | done].
  - eexists. split; [done |]. by split.
Qed.

End ZeroField.

(** ** Double precision *)

Lemma float_neq (x y : float) : PrimFloat.Leibniz.eqb x y = false → x ≠ y.
Proof.
  intros Hne ->. pose proof (proj2 (FloatAxioms.Leibniz.eqb_spec y y) eq_refl).
  congruence.
Qed.

(** *** Facts of binary64 arithmetic *)


Lemma is_zero_spec x : is_zero x = Binary64.sf_is_zero (Prim2SF x).
Proof.
  unfold is_zero. rewrite FloatAxioms.eqb_spec.
  change (Prim2SF zero) with (S754_zero false).
  by destruct (Prim2SF x) as [[]|[]| |[] m e].
Qed.


Lemma binary_round_aux_sign sx mx ex lx :
  Binary64.sf_has_sign sx (binary_round_aux prec emax sx mx ex lx).
Proof.
  unfold binary_round_aux.
  destruct (shr_fexp prec emax mx ex lx) as [mrs' e'].
  destruct (shr_fexp prec emax _ e' loc_Exact) as [mrs'' e''].
  destruct (shr_m mrs''); [done | | done].
  by destruct (_ <=? _).
Qed.

Lemma binary_round_sign sx mx ex :
  Binary64.sf_has_sign sx (binary_round prec emax sx mx ex).
Proof.
  unfold binary_round. destruct (shl_align _ _ _) as [mz ez].
  apply binary_round_aux_sign.
Qed.

Lemma SFmul_square_sign x : Binary64.sf_has_sign false (SF64mul x x).
Proof.
  destruct x as [[]|[]| |s m e]; try done.
  unfold SF64mul, SFmul. replace (xorb s s) with false by by destruct s.
  apply binary_round_aux_sign.
Qed.

Lemma SFadd_sign x y :
  Binary64.sf_has_sign false x → Binary64.sf_has_sign false y → Binary64.sf_has_sign false (SF64add x y).
Proof.
  destruct x as [sx|sx| |sx mx ex], y as [sy|sy| |sy my ey]; simpl;
    intros Hx Hy; subst; try done.
  unfold SF64add, SFadd. cbn [cond_Zopp]. 
  apply binary_round_sign.
Qed.

Lemma SFltb_zero x s : Binary64.sf_has_sign false x → SFltb x (S754_zero s) = false.
Proof. destruct x as [sx|sx| |sx mx ex]; simpl; intros Hx; subst; done. Qed.


Lemma mul_abs_abs r : (abs r * abs r = r * r)%float.
Proof.
  apply Prim2SF_inj. rewrite !FloatAxioms.mul_spec, FloatAxioms.abs_spec.
  destruct (Prim2SF r) as [[]|[]| |[] m e]; done.
Qed.
Lemma mul_opp_opp r : (- r * - r = r * r)%float.
Proof.
  apply Prim2SF_inj. rewrite !FloatAxioms.mul_spec, FloatAxioms.opp_spec.
  destruct (Prim2SF r) as [[]|[]| |[] m e]; done.
Qed.

Lemma sum_squares_not_below_zero a b r :
  is_zero r = true → ((a * a + b * b) <? r * r)%float = false.
Proof.
  rewrite is_zero_spec. intros Hr.
  rewrite FloatAxioms.ltb_spec, FloatAxioms.add_spec, !FloatAxioms.mul_spec.
  destruct (Prim2SF r) as [s| | |]; try done.
  change (SF64mul (S754_zero s) (S754_zero s)) with (S754_zero (xorb s s)).
  apply SFltb_zero, SFadd_sign; apply SFmul_square_sign.
Qed.






(** The disk of radius 1.5 around (2, 2) on a 4 by 4 grid. *)
Lemma in_disk_4x4 sin cos i :
  0 ≤ i < 16 →
  in_disk (SF := Binary64.scalar sin cos) 4 2%float 2%float 1.5%float i
  = bool_decide (4 * ((i `mod` 4 - 2) ^ 2 + (i `div` 4 - 2) ^ 2) < 9).
Proof.
  intros Hi.
  assert (i ∈ seqZ 0 16) as Hin by (apply elem_of_seqZ; lia).
  vm_compute seqZ in Hin.
  repeat (apply elem_of_cons in Hin as [->|Hin]; [by vm_compute |]).
  by apply elem_of_nil in Hin.
Qed.

Lemma wave_displace_4x4 sin cos (σ : gmap nat (list float)) hc hp c p sched :
  sin (- Binary64.pi * 0.5)%float = (-1)%float →
  hc ≠ hp → σ !! hc = Some c → σ !! hp = Some p →
  length c = 16%nat → length p = 16%nat → schedule 16 sched →
  ∃ c' p',
    launch (wave_displace (SF := Binary64.scalar sin cos) hc hp 4 4
              2%float 2%float 1.5%float 1%float (- Binary64.pi * 0.5)%float)
           sched σ
    = Some (<[hp := p']> (<[hc := c']> σ))
    ∧ length c' = 16%nat ∧ length p' = 16%nat
    ∧ ∀ i, 0 ≤ i < 16 →
        if bool_decide (4 * ((i `mod` 4 - 2) ^ 2 + (i `div` 4 - 2) ^ 2) < 9)
        then c' !! Z.to_nat i = Some (-1)%float
             ∧ p' !! Z.to_nat i = Some (-1)%float
        else c' !! Z.to_nat i = c !! Z.to_nat i
             ∧ p' !! Z.to_nat i = p !! Z.to_nat i.
Proof.
  intros Hsin Hne Hc Hp Hlc Hlp Hs.
  destruct (wave_displace_cells (SF := Binary64.scalar sin cos) σ hc hp c p 4 4
              2%float 2%float 1.5%float 1%float (- Binary64.pi * 0.5)%float sched)
    as (c' & p' & Hl & Hlc' & Hlp' & Hcells); [lia | lia | done .. |].
  exists c', p'. split_and!; [done | congruence | congruence |].
  intros i Hi. specialize (Hcells i Hi).
  rewrite in_disk_4x4 in Hcells by done.
  change (fmul (Scalar := Binary64.scalar sin cos) 1%float
            (fsin (Scalar := Binary64.scalar sin cos) (- Binary64.pi * 0.5)%float))
    with (1 * sin (- Binary64.pi * 0.5))%float in Hcells.
  rewrite Hsin in Hcells.
  by change (1 * -1)%float with (-1)%float in Hcells.
Qed.

Section Binary64Cases.
#[local] Existing Instance Binary64.taylor.
Import Binary64.

(** C1, as stated, fails on doubles.  With cell spacing 0.1 the host passes
    [inv_cell = 10]; on the row [two_cells] the stencil at cell 0 is -1, and
    the launch writes [-98] where dividing by the squared spacing gives
    [-97.999999999999986]. *)
Lemma wave_solve_not_divided :
  py_div (flit 1) (flit 0.1) = Some 10%float
  ∧ laplacian two_cells 1 0 0 2 1 = Some (-1)%float
  ∧ launch (wave_solve 0 1 2 1 10%float 1%float 0%float 1%float) (seqZ 0 2) two_cells
      ≫= (λ σ', σ' !! 0%nat)
    = Some [-98; 100]%float
  ∧ leapfrog_spec (-1)%float 1%float 0%float (flit 0.1) 1%float 0%float 1%float
    = (-0x1.87fffffffffffp+6)%float
  ∧ (-98)%float
    ≠ leapfrog_spec (-1)%float 1%float 0%float (flit 0.1) 1%float 0%float 1%float.
Proof.
  split_and!; [by vm_compute .. |]. apply float_neq. by vm_compute.
Qed.

Lemma schedule_swap_2 : schedule (2 * 1) [1; 0].
Proof. unfold schedule. vm_compute seqZ. apply perm_swap. Qed.

Lemma wave_solve_spec_witness :
  ∃ p',
    launch (wave_solve 0 1 2 1 10%float 1%float 0%float 1%float) [1; 0] two_cells
    = Some (<[0%nat := p']> two_cells)
    ∧ <[0%nat := p']> two_cells !! 1%nat = Some [1; 0]%float
    ∧ length p' = length [0; 0]%float
    ∧ ∀ i, 0 ≤ i < 2 * 1 →
        let x := i `mod` 2 in
        let y := i `div` 2 in
        ∃ e m w s n h1 h0,
          sample two_cells 1 (x + 1) y 2 1 = Some e
          ∧ sample two_cells 1 x y 2 1 = Some m
          ∧ sample two_cells 1 (x - 1) y 2 1 = Some w
          ∧ sample two_cells 1 x (y + 1) 2 1 = Some s
          ∧ sample two_cells 1 x (y - 1) 2 1 = Some n
          ∧ [1; 0]%float !! Z.to_nat i = Some h1
          ∧ [0; 0]%float !! Z.to_nat i = Some h0
          ∧ p' !! Z.to_nat i
            = Some (flit 2 * h1 - h0
                    + 1%float * 1%float
                      * (1%float * (((e - flit 2 * m + w) + (s - flit 2 * m + n))
                                    * 10%float * 10%float)
                         - 0%float * (h1 - h0)))%F.
Proof.
  apply (wave_solve_spec two_cells 0 1 [1; 0]%float [0; 0]%float 2 1
           10%float 1%float 0%float 1%float [1; 0]);
    [lia | lia | done | reflexivity | reflexivity | reflexivity | reflexivity
    | exact schedule_swap_2].
Defined.

Lemma launch_order_independent_witness :
  (launch (wave_solve 0 1 2 1 10%float 1%float 0%float 1%float) [1; 0] two_cells
   = launch (wave_solve_at_entry two_cells 0 1 2 1 10%float 1%float 0%float 1%float)
       (seqZ 0 (2 * 1)) two_cells
   ∧ is_Some (launch (wave_solve 0 1 2 1 10%float 1%float 0%float 1%float)
                [1; 0] two_cells))
  ∧ (launch (wave_displace 1 0 2 1 0%float 0%float 1%float 0.5%float 0%float)
       [1; 0] two_cells
     = launch (wave_displace 1 0 2 1 0%float 0%float 1%float 0.5%float 0%float)
         (seqZ 0 (2 * 1)) two_cells
     ∧ is_Some (launch (wave_displace 1 0 2 1 0%float 0%float 1%float 0.5%float 0%float)
                  [1; 0] two_cells)).
Proof.
  apply (launch_order_independent two_cells 0 1 [1; 0]%float [0; 0]%float 2 1
           10%float 1%float 0%float 1%float 0%float 0%float 1%float 0.5%float
           0%float [1; 0]);
    [lia | lia | done | reflexivity | reflexivity | reflexivity | reflexivity
    | exact schedule_swap_2].
Defined.

Lemma grid_update_spec_witness :
  ∃ vs',
    launch (λ tid ν, grid_update 1 0 tid two_cells ν) [1; 0] two_vertices
    = Some (<[0%nat := vs']> two_vertices)
    ∧ length vs' = length [(1, 2, 3); (4, 5, 6)]%float
    ∧ ∀ i, 0 ≤ i < 2 * 1 →
        ∃ x y z h,
          [(1, 2, 3); (4, 5, 6)]%float !! Z.to_nat i = Some (x, y, z)
          ∧ [1; 0]%float !! Z.to_nat i = Some h
          ∧ vs' !! Z.to_nat i = Some (x, h, z).
Proof.
  apply (grid_update_spec two_cells two_vertices 1 0 [1; 0]%float
           [(1, 2, 3); (4, 5, 6)]%float (2 * 1) [1; 0]);
    [reflexivity | reflexivity | reflexivity | reflexivity
    | exact schedule_swap_2].
Defined.

(** C8, as stated, fails.  With a cell spacing of zero and everything else as in
    the script, [wave_displace] is launched before the quotient
    [1.0 / grid_size] raises inside the loop. *)
Lemma zero_spacing_raises_in_loop :
  grid_size no_spacing = 0%float
  ∧ run ascending no_spacing = Raised ZeroDivisionError 1.
Proof. split; by vm_compute. Qed.

Lemma fair_ascending : fair ascending.
Proof. intros k dim. apply schedule_ascending. Qed.

Lemma fair_descending : fair descending.
Proof. intros k dim. unfold schedule, descending. apply reverse_Permutation. Qed.

Lemma run_deterministic_witness :
  run ascending script_4x4 = run descending script_4x4
  ∧ (∀ dt n st, sim_grid0 st ≠ sim_grid1 st →
       repeat_outcome n (substep ascending script_4x4 dt) st
       = repeat_outcome n (substep descending script_4x4 dt) st)
  ∧ (∀ dt n st, sim_grid0 st ≠ sim_grid1 st →
       repeat_outcome n (frame ascending script_4x4 dt) st
       = repeat_outcome n (frame descending script_4x4 dt) st).
Proof.
  apply (run_deterministic ascending descending script_4x4);
    [exact fair_ascending | exact fair_descending].
Defined.

Lemma setup_raises_witness : ∃ e, run ascending no_fps = Raised e 0.
Proof. apply (setup_raises ascending no_fps). left. reflexivity. Defined.

End Binary64Cases.

(** C2. On a [W] by [H] grid with two different arrays of [W * H] cells, a
    launch of [wave_displace], in whatever order its threads run, sets cell
    [i] of both arrays to [mag * sin t] when
    [dx*dx + dy*dy < r*r] for [dx = float(i mod W) - cx] and
    [dy = float(i div W) - cy], and leaves cell [i] of both arrays as it was
    otherwise.  In particular, in double precision on a 4 by 4 grid, with
    centre (2, 2), radius 1.5, magnitude 1 and the phase [-pi * 0.5] at which
    the sine is -1, the cells whose squared distance to the centre is below
    2.25 receive -1 and all others keep their value. *)
Theorem wave_displace_spec :
  (∀ (F : Type) (SF : Scalar F) (σ : gmap nat (list F)) hc hp c p W H
     cx cy r mag t sched,
     1 ≤ W → 1 ≤ H → hc ≠ hp → σ !! hc = Some c → σ !! hp = Some p →
     length c = Z.to_nat (W * H) → length p = Z.to_nat (W * H) →
     schedule (W * H) sched →
     ∃ c' p',
       launch (wave_displace hc hp W H cx cy r mag t) sched σ
       = Some (<[hp := p']> (<[hc := c']> σ))
       ∧ length c' = length c ∧ length p' = length p
       ∧ ∀ i, 0 ≤ i < W * H →
           let dx := (of_int (i `mod` W) - cx)%F in
           let dy := (of_int (i `div` W) - cy)%F in
           if ((dx * dx + dy * dy) <? r * r)%F
           then c' !! Z.to_nat i = Some (mag * fsin t)%F
                ∧ p' !! Z.to_nat i = Some (mag * fsin t)%F
           else c' !! Z.to_nat i = c !! Z.to_nat i
                ∧ p' !! Z.to_nat i = p !! Z.to_nat i)
  ∧ (∀ sin cos (σ : gmap nat (list float)) hc hp c p sched,
       sin (- Binary64.pi * 0.5)%float = (-1)%float →
       hc ≠ hp → σ !! hc = Some c → σ !! hp = Some p →
       length c = 16%nat → length p = 16%nat → schedule 16 sched →
       ∃ c' p',
         launch (wave_displace (SF := Binary64.scalar sin cos) hc hp 4 4
                   2%float 2%float 1.5%float 1%float (- Binary64.pi * 0.5)%float)
                sched σ
         = Some (<[hp := p']> (<[hc := c']> σ))
         ∧ length c' = 16%nat ∧ length p' = 16%nat
         ∧ ∀ i, 0 ≤ i < 16 →
             if bool_decide (4 * ((i `mod` 4 - 2) ^ 2 + (i `div` 4 - 2) ^ 2) < 9)
             then c' !! Z.to_nat i = Some (-1)%float
                  ∧ p' !! Z.to_nat i = Some (-1)%float
             else c' !! Z.to_nat i = c !! Z.to_nat i
                  ∧ p' !! Z.to_nat i = p !! Z.to_nat i).
Proof.
  split.
  - intros F SF σ hc hp c p W H cx cy r mag t sched.
    exact (wave_displace_cells σ hc hp c p W H cx cy r mag t sched).
  - exact wave_displace_4x4.
Qed.

(** The 4 by 4 scenario on a grid of distinct heights, threads in descending
    order. *)
Lemma wave_displace_spec_witness :
  ∃ c' p',
    launch (wave_displace (SF := Binary64.taylor) 0 1 4 4
              2%float 2%float 1.5%float 1%float (- Binary64.pi * 0.5)%float)
           (reverse (seqZ 0 16)) Binary64.grid_4x4
    = Some (<[1%nat := p']> (<[0%nat := c']> Binary64.grid_4x4))
    ∧ length c' = 16%nat ∧ length p' = 16%nat
    ∧ ∀ i, 0 ≤ i < 16 →
        if bool_decide (4 * ((i `mod` 4 - 2) ^ 2 + (i `div` 4 - 2) ^ 2) < 9)
        then c' !! Z.to_nat i = Some (-1)%float
             ∧ p' !! Z.to_nat i = Some (-1)%float
        else c' !! Z.to_nat i = Binary64.ramp !! Z.to_nat i
             ∧ p' !! Z.to_nat i = Binary64.ramp !! Z.to_nat i.
Proof.
  apply (proj2 wave_displace_spec Binary64.sin_taylor Binary64.cos_taylor
           Binary64.grid_4x4 0%nat 1%nat Binary64.ramp Binary64.ramp
           (reverse (seqZ 0 16)));
    [by vm_compute | done | reflexivity | reflexivity | reflexivity
    | reflexivity | unfold schedule; apply reverse_Permutation].
Defined.

(** *** The flat field and the radius in double precision *)

Section Binary64Field.
Variables sin cos : float → float.
#[local] Hint Extern 0 (Scalar float) =>
  exact (Binary64.scalar sin cos) : typeclass_instances.
Implicit Types (st : @host float) (cfg : @params float) (o : oracle).

Lemma launch_ext {S} (body1 body2 : Z → S → option S) sched σ :
  (∀ t σ, body1 t σ = body2 t σ) → launch body1 sched σ = launch body2 sched σ.
Proof.
  intros Hext. revert σ. induction sched as [|t sched IH]; intros σ; simpl; [done |].
  rewrite Hext. destruct (body2 t σ); simpl; [apply IH | done].
Qed.

Lemma in_disk_abs W cx cy r tid :
  in_disk W cx cy (abs r) tid = in_disk W cx cy r tid.
Proof. unfold in_disk. cbn. by rewrite mul_abs_abs. Qed.

Lemma in_disk_opp W cx cy r tid :
  in_disk W cx cy (- r)%float tid = in_disk W cx cy r tid.
Proof. unfold in_disk. cbn. by rewrite mul_opp_opp. Qed.

Lemma in_disk_zero W cx cy r tid :
  is_zero r = true → in_disk W cx cy r tid = false.
Proof. intros Hr. unfold in_disk. cbn. by apply sum_squares_not_below_zero. Qed.

Lemma wave_displace_no_radius hc hp W H cx cy r mag t sched
    (σ : gmap nat (list float)) :
  W ≠ 0 → is_zero r = true →
  launch (wave_displace hc hp W H cx cy r mag t) sched σ = Some σ.
Proof.
  intros HW Hr. induction sched as [|tid sched IH]; simpl; [done |].
  by rewrite wave_displace_unfold, decide_False, in_disk_zero by done.
Qed.

(** C10. In double precision the disk of [wave_displace] depends on the
    radius through its square only.  A thread stamps its cell exactly when
    [dx*dx + dy*dy < r*r]; the radius [|r|] and the radius [-r] give the same
    threads and the same launches as [r]; and with a radius of zero no cell
    satisfies the test, so a launch leaves the store as it was. *)
Theorem wave_displace_radius hc hp W H cx cy r mag t :
  (∀ tid (σ : gmap nat (list float)),
     wave_displace hc hp W H cx cy r mag t tid σ
     = if decide (W = 0) then None
       else let dx := (of_int (tid `mod` W) - cx)%F in
            let dy := (of_int (tid `div` W) - cy)%F in
            if ((dx * dx + dy * dy) <? r * r)%F
            then wp_store σ hc tid (mag * fsin t)%F
                   ≫= λ σ', wp_store σ' hp tid (mag * fsin t)%F
            else Some σ)
  ∧ (∀ tid (σ : gmap nat (list float)),
       wave_displace hc hp W H cx cy (abs r) mag t tid σ
       = wave_displace hc hp W H cx cy r mag t tid σ
       ∧ wave_displace hc hp W H cx cy (- r)%float mag t tid σ
         = wave_displace hc hp W H cx cy r mag t tid σ)
  ∧ (∀ sched (σ : gmap nat (list float)),
       launch (wave_displace hc hp W H cx cy (abs r) mag t) sched σ
       = launch (wave_displace hc hp W H cx cy r mag t) sched σ
       ∧ launch (wave_displace hc hp W H cx cy (- r)%float mag t) sched σ
         = launch (wave_displace hc hp W H cx cy r mag t) sched σ)
  ∧ (∀ tid, in_disk W cx cy 0%float tid = false)
  ∧ (∀ sched (σ : gmap nat (list float)),
       W ≠ 0 →
       launch (wave_displace hc hp W H cx cy 0%float mag t) sched σ = Some σ).
Proof.
  assert (∀ tid (σ : gmap nat (list float)),
            wave_displace hc hp W H cx cy (abs r) mag t tid σ
            = wave_displace hc hp W H cx cy r mag t tid σ) as Habs.
  { intros tid σ. by rewrite !wave_displace_unfold, in_disk_abs. }
  assert (∀ tid (σ : gmap nat (list float)),
            wave_displace hc hp W H cx cy (- r)%float mag t tid σ
            = wave_displace hc hp W H cx cy r mag t tid σ) as Hopp.
  { intros tid σ. by rewrite !wave_displace_unfold, in_disk_opp. }
  split_and!.
  - intros tid σ. apply wave_displace_unfold.
  - done.
  - intros sched σ. split; by apply launch_ext.
  - intros tid. by apply in_disk_zero.
  - intros sched σ HW. by apply wave_displace_no_radius.
Qed.


End Binary64Field.

Section Binary64FieldCases.
#[local] Existing Instance Binary64.taylor.
Import Binary64.




(** A radius of -2 against a radius of 2, and a radius of zero, on the 4 by 4
    grid. *)
Lemma wave_displace_radius_witness :
  (launch (wave_displace 0 1 4 4 2%float 2%float (- (2))%float 1%float 0%float)
          (seqZ 0 16) grid_4x4
   = launch (wave_displace 0 1 4 4 2%float 2%float 2%float 1%float 0%float)
       (seqZ 0 16) grid_4x4)
  ∧ launch (wave_displace 0 1 4 4 2%float 2%float 0%float 1%float 0%float)
           (seqZ 0 16) grid_4x4
    = Some grid_4x4.
Proof.
  split.
  - apply (proj2 (proj1 (proj2 (proj2
             (wave_displace_radius sin_taylor cos_taylor 0 1 4 4
                2%float 2%float 2%float 1%float 0%float))) (seqZ 0 16) grid_4x4)).
  - apply (proj2 (proj2 (proj2 (proj2
             (wave_displace_radius sin_taylor cos_taylor 0 1 4 4
                2%float 2%float 2%float 1%float 0%float)))) (seqZ 0 16) grid_4x4).
    lia.
Defined.

End Binary64FieldCases.

(** * Further properties
    ** The grid index and the mesh of the script *)

Section MeshTopology.
Implicit Types (W H x y z tid : Z) (ind cnt xs : list Z).

Lemma grid_index_mod x y W : 0 ≤ x < W → grid_index x y W `mod` W = x.
Proof.
  intros Hx. unfold grid_index.
  rewrite Z.add_comm, Z_mod_plus_full. by apply Z.mod_small.
Qed.

Lemma grid_index_div x y W : 0 ≤ x < W → grid_index x y W `div` W = y.
Proof.
  intros Hx. unfold grid_index.
  rewrite Z.add_comm, Z_div_plus_full by lia. rewrite Z.div_small by done. lia.
Qed.

(** X1. On a grid of positive width [grid_index] and the decomposition
    [tid % width], [tid // width] of the kernels are inverse to each other:
    the index of a column [x] of the grid and of any row [y] decomposes into
    [(x, y)]; and every thread index [tid], from zero on, decomposes into a
    column of the grid and a row, not negative, whose index is [tid] again. *)
Theorem grid_index_round_trip x y tid W :
  0 < W →
  (0 ≤ x < W → cell_of (grid_index x y W) W = Some (x, y))
  ∧ (0 ≤ tid →
     ∃ x' y', cell_of tid W = Some (x', y') ∧ 0 ≤ x' < W ∧ 0 ≤ y'
              ∧ grid_index x' y' W = tid).
Proof.
  intros HW. split.
  - intros Hx. unfold cell_of. rewrite decide_False by lia.
    by rewrite grid_index_mod, grid_index_div.
  - intros Ht. exists (tid `mod` W), (tid `div` W). unfold cell_of, grid_index.
    rewrite decide_False by lia.
    pose proof (Z.mod_pos_bound tid W HW). pose proof (Z.div_mod tid W).
    pose proof (Z.div_pos tid W Ht HW).
    split_and!; [done | lia | lia | lia | lia].
Qed.

Lemma mesh_row_outside W z acc : z ≤ 0 → mesh_row W z acc = acc.
Proof.
  intros Hz. unfold mesh_row. generalize (seqZ 0 W). intros xs.
  revert acc. induction xs as [|x xs IH]; intros [ind cnt]; simpl; [done |].
  destruct (decide (0 < x ∧ 0 < z)) as [Hn|_]; [lia |]. apply IH.
Qed.

Lemma mesh_row_positive W z xs ind cnt :
  0 < z → Forall (λ x, 0 < x) xs →
  foldl (λ '(indices, counts) x,
           if decide (0 < x ∧ 0 < z)
           then (indices ++ quad x z W, counts ++ [3; 3])
           else (indices, counts))
        (ind, cnt) xs
  = (ind ++ (xs ≫= λ x, quad x z W), cnt ++ (xs ≫= λ _, [3; 3])).
Proof.
  intros Hz Hxs. revert ind cnt.
  induction Hxs as [|x xs Hx _ IH]; intros ind cnt; cbn [foldl mbind list_bind].
  - by rewrite !app_nil_r.
  - destruct (decide (0 < x ∧ 0 < z)) as [_|Hn]; [| lia]. rewrite IH.
    by rewrite <- !(assoc_L (++)).
Qed.

Lemma seqZ_1_positive n : Forall (λ x, 0 < x) (seqZ 1 n).
Proof. apply Forall_seqZ. lia. Qed.

Lemma mesh_row_inside W z ind cnt :
  0 < z →
  mesh_row W z (ind, cnt)
  = (ind ++ (seqZ 1 (W - 1) ≫= λ x, quad x z W),
     cnt ++ (seqZ 1 (W - 1) ≫= λ _, [3; 3])).
Proof.
  intros Hz. unfold mesh_row.
  destruct (decide (0 < W)) as [HW|HW].
  - rewrite (seqZ_cons 0 W) by done. cbn [foldl].
    destruct (decide (0 < 0 ∧ 0 < z)) as [Hn|_]; [lia |].
    replace (Z.pred W) with (W - 1) by lia.
    apply mesh_row_positive; [done | apply seqZ_1_positive].
  - rewrite (seqZ_nil 0 W), (seqZ_nil 1 (W - 1)) by lia. simpl.
    by rewrite !app_nil_r.
Qed.

Lemma mesh_rows W zs ind cnt :
  Forall (λ z, 0 < z) zs →
  foldl (λ acc z, mesh_row W z acc) (ind, cnt) zs
  = (ind ++ (zs ≫= λ z, seqZ 1 (W - 1) ≫= λ x, quad x z W),
     cnt ++ (zs ≫= λ _, seqZ 1 (W - 1) ≫= λ _, [3; 3])).
Proof.
  intros Hzs. revert ind cnt.
  induction Hzs as [|z zs Hz _ IH]; intros ind cnt; simpl.
  - by rewrite !app_nil_r.
  - rewrite mesh_row_inside by done. rewrite IH.
    by rewrite <- !(assoc_L (++)).
Qed.

(** The loops with their guard are the comprehension over the inner corners. *)
Lemma mesh_faces_closed W H :
  mesh_faces W H
  = (seqZ 1 (H - 1) ≫= (λ z, seqZ 1 (W - 1) ≫= λ x, quad x z W),
     seqZ 1 (H - 1) ≫= (λ _, seqZ 1 (W - 1) ≫= λ _, [3; 3])).
Proof.
  unfold mesh_faces. destruct (decide (0 < H)) as [HH|HH].
  - rewrite (seqZ_cons 0 H) by done. simpl.
    rewrite mesh_row_outside by done.
    replace (Z.pred H) with (H - 1) by lia.
    by rewrite mesh_rows by apply seqZ_1_positive.
  - rewrite (seqZ_nil 0 H), (seqZ_nil 1 (H - 1)) by lia. done.
Qed.

Lemma bind_const_replicate {A} (l : list Z) (k : list A) (v : A) n :
  k = replicate n v → l ≫= (λ _, k) = replicate (length l * n) v.
Proof.
  intros ->. induction l as [|x l IH]; [done |].
  rewrite bind_cons, IH. cbn [length Nat.mul]. by rewrite replicate_add.
Qed.

Lemma length_bind_const {A} (l : list Z) (f : Z → list A) n :
  (∀ x, length (f x) = n) → length (l ≫= f) = (length l * n)%nat.
Proof.
  intros Hf. induction l as [|x l IH]; [done |].
  rewrite bind_cons, length_app, Hf, IH. cbn [length Nat.mul]. done.
Qed.

Lemma quad_range x z W H :
  1 ≤ x < W → 1 ≤ z < H → Forall (λ i, 0 ≤ i < W * H) (quad x z W).
Proof.
  intros Hx Hz. unfold quad, grid_index.
  repeat (apply Forall_cons; split; [nia |]). apply Forall_nil_2.
Qed.

(** X2. The face lists the script builds describe a mesh over the grid:
    [indices] lists, row by row, the two triangles of every cell with corners
    [(x-1, z-1)] and [(x, z)] for [1 <= x < width], [1 <= z < height];
    [counts] holds a [3] for each of the [2 * (width-1) * (height-1)]
    triangles; [indices] is three times as long as [counts]; and every index
    names a vertex of the grid.  A grid with fewer than two rows or columns
    has no face. *)
Theorem mesh_faces_spec W H :
  (mesh_faces W H).1
  = seqZ 1 (H - 1) ≫= (λ z, seqZ 1 (W - 1) ≫= λ x, quad x z W)
  ∧ (mesh_faces W H).2 = replicate (2 * (Z.to_nat (W - 1) * Z.to_nat (H - 1))) 3
  ∧ length (mesh_faces W H).1 = (3 * length (mesh_faces W H).2)%nat
  ∧ Forall (λ i, 0 ≤ i < W * H) (mesh_faces W H).1.
Proof.
  rewrite mesh_faces_closed. cbn [fst snd]. split_and!.
  - done.
  - rewrite (bind_const_replicate _ _ 3 (length (seqZ 1 (W - 1)) * 2));
      [| by apply (bind_const_replicate _ _ 3 2)].
    rewrite !length_seqZ. f_equal. lia.
  - rewrite (length_bind_const _ _ (Z.to_nat (W - 1) * 6));
      [| intros z; by rewrite (length_bind_const _ _ 6), length_seqZ].
    rewrite (length_bind_const _ _ (Z.to_nat (W - 1) * 2));
      [| intros z; by rewrite (length_bind_const _ _ 2), length_seqZ].
    lia.
  - apply Forall_bind, Forall_seqZ. intros z Hz.
    apply Forall_bind, Forall_seqZ. intros x Hx.
    apply quad_range; lia.
Qed.

End MeshTopology.

Section MeshVertices.
Context {F : Type} {SF : Scalar F}.
Implicit Types (cfg : @params F) (vs : list (vec3 F)).

Lemma writes_app {A} (w : Z → option A) s1 s2 (a : list A) :
  writes w (s1 ++ s2) a = writes w s2 (writes w s1 a).
Proof. unfold writes. apply foldl_app. Qed.

(** The vertex the set-up loops place at a grid index. *)
Lemma place_row_writes cfg z xs vs :
  Forall (λ x, 0 ≤ x < sim_width cfg) xs →
  foldl (λ vs x,
           let pos : vec3 F :=
             ((of_int x * grid_size cfg)%F, flit 0, (of_int z * grid_size cfg)%F) in
           <[Z.to_nat (z * sim_width cfg + x) := pos]> vs)
        vs xs
  = writes (λ t, Some ((of_int (t `mod` sim_width cfg) * grid_size cfg)%F, flit 0,
                       (of_int (t `div` sim_width cfg) * grid_size cfg)%F))
           ((λ x, z * sim_width cfg + x) <$> xs) vs.
Proof.
  intros Hxs. revert vs. induction Hxs as [|x xs Hx _ IH]; intros vs; [done |].
  cbn [foldl fmap list_fmap]. rewrite writes_cons, IH.
  change (z * sim_width cfg + x) with (grid_index x z (sim_width cfg)).
  by rewrite grid_index_mod, grid_index_div.
Qed.

Lemma place_vertices_writes cfg vs :
  place_vertices cfg vs
  = writes (λ t, Some ((of_int (t `mod` sim_width cfg) * grid_size cfg)%F, flit 0,
                       (of_int (t `div` sim_width cfg) * grid_size cfg)%F))
           (seqZ 0 (sim_height cfg)
              ≫= λ z, (λ x, z * sim_width cfg + x) <$> seqZ 0 (sim_width cfg))
           vs.
Proof.
  unfold place_vertices. generalize (seqZ 0 (sim_height cfg)). intros zs.
  revert vs. induction zs as [|z zs IH]; intros vs; [done |].
  cbn [foldl]. rewrite bind_cons, writes_app, IH. f_equal.
  apply place_row_writes, Forall_seqZ. lia.
Qed.

Lemma length_place_vertices cfg vs :
  length (place_vertices cfg vs) = length vs.
Proof. rewrite place_vertices_writes. apply length_writes. Qed.

(** X3. The set-up loops leave the vertex array at its length and put at the
    index of column [x] and row [z] the point
    [(float(x) * grid_size, 0.0, float(z) * grid_size)], for every cell of a
    grid that fits the array. *)
Theorem place_vertices_spec cfg vs x z :
  length vs = Z.to_nat (sim_width cfg * sim_height cfg) →
  0 ≤ x < sim_width cfg → 0 ≤ z < sim_height cfg →
  length (place_vertices cfg vs) = length vs
  ∧ place_vertices cfg vs !! Z.to_nat (grid_index x z (sim_width cfg))
    = Some ((of_int x * grid_size cfg)%F, flit 0, (of_int z * grid_size cfg)%F).
Proof.
  intros Hlen Hx Hz. rewrite place_vertices_writes.
  split; [apply length_writes |].
  pose proof (cell_index_range x z (sim_width cfg) (sim_height cfg) Hx Hz) as Hi.
  fold (grid_index x z (sim_width cfg)) in Hi.
  rewrite writes_lookup_in.
  - rewrite Z2Nat.id by lia. by rewrite grid_index_mod, grid_index_div.
  - rewrite Z2Nat.id by lia. apply list_elem_of_bind. exists z. split.
    + apply list_elem_of_fmap. exists x. split; [done |].
      apply elem_of_seqZ. lia.
    + apply elem_of_seqZ. lia.
  - intros t (z' & (x' & -> & Hx')%list_elem_of_fmap & Hz')%list_elem_of_bind.
    apply elem_of_seqZ in Hx', Hz'.
    assert (0 ≤ z' * sim_width cfg) by (apply Z.mul_nonneg_nonneg; lia). lia.
  - unfold vec3 in *. lia.
Qed.

End MeshVertices.

(** ** What the kernels leave alone *)

Section Footprint.
Context {F : Type} {SF : Scalar F}.

Lemma touches_only_refl {A} fs (σ : gmap nat (list A)) : touches_only fs σ σ.
Proof. by split. Qed.

Lemma touches_only_trans {A} fs (σ1 σ2 σ3 : gmap nat (list A)) :
  touches_only fs σ1 σ2 → touches_only fs σ2 σ3 → touches_only fs σ1 σ3.
Proof.
  intros [H1 L1] [H2 L2]. split; intros g.
  - intros Hg. by rewrite H2, H1.
  - by rewrite L2, L1.
Qed.

Lemma touches_only_mono {A} fs fs' (σ σ' : gmap nat (list A)) :
  fs ⊆ fs' → touches_only fs σ σ' → touches_only fs' σ σ'.
Proof.
  intros Hsub [H1 L1]. split; [| done]. intros g Hg. apply H1.
  intros Hin. apply Hg, Hsub, Hin.
Qed.

Lemma wp_store_touches {A} (σ σ' : gmap nat (list A)) f i v :
  wp_store σ f i v = Some σ' → touches_only [f] σ σ'.
Proof.
  intros (a & Hf & Hi & ->)%wp_store_inv. split; intros g.
  - intros Hg. apply lookup_insert_ne. intros ->. apply Hg. by left.
  - destruct (decide (f = g)) as [<-|Hne].
    + by rewrite lookup_insert_eq, Hf; simpl; rewrite length_insert.
    + by rewrite lookup_insert_ne.
Qed.

Lemma launch_touches {A} fs (body : Z → gmap nat (list A) → option (gmap nat (list A)))
    sched σ σ' :
  (∀ t σ σ', body t σ = Some σ' → touches_only fs σ σ') →
  launch body sched σ = Some σ' → touches_only fs σ σ'.
Proof.
  intros Hbody. revert σ. induction sched as [|t sched IH]; intros σ; simpl.
  - intros [= <-]. apply touches_only_refl.
  - destruct (body t σ) as [σ1|] eqn:Ht; simpl; [| done].
    intros Hrest. eapply touches_only_trans; [by eapply Hbody | by apply IH].
Qed.

Lemma wave_solve_touches (σ σ' : gmap nat (list F)) hp hc W H ic ks kd dt tid :
  wave_solve hp hc W H ic ks kd dt tid σ = Some σ' → touches_only [hp] σ σ'.
Proof.
  rewrite wave_solve_unfold.
  destruct (wave_solve_value _ _ _ _ _ _ _ _ _ _) as [h|]; simpl; [| done].
  apply wp_store_touches.
Qed.

Lemma wave_displace_touches (σ σ' : gmap nat (list F)) hc hp W H cx cy r mag t
    tid :
  wave_displace hc hp W H cx cy r mag t tid σ = Some σ' →
  touches_only [hc; hp] σ σ'.
Proof.
  rewrite wave_displace_unfold. case_decide; [done |].
  destruct (in_disk W cx cy r tid).
  - destruct (wp_store σ hc tid _) as [σ1|] eqn:H1; simpl; [| done].
    intros H2. apply wp_store_touches in H1, H2.
    eapply touches_only_trans; (eapply touches_only_mono; [| done]);
      intros g ->%list_elem_of_singleton; [left | right; left].
  - intros [= <-]. apply touches_only_refl.
Qed.

Lemma grid_update_touches (σ : gmap nat (list F)) (ν ν' : gmap nat (list (vec3 F)))
    heights vertices tid :
  grid_update heights vertices tid σ ν = Some ν' → touches_only [vertices] ν ν'.
Proof.
  unfold grid_update.
  destruct (wp_load σ heights tid) as [h|]; simpl; [| done].
  destruct (wp_load ν vertices tid) as [v|]; simpl; [| done].
  apply wp_store_touches.
Qed.

(** X4. Whatever the grid, the sizes of the arrays and the schedule, a launch
    that completes has written nowhere but in its output: [wave_solve] in the
    previous array, [wave_displace] in the current and the previous array,
    [grid_update] in the vertex array.  Every other array of the store is what
    it was, and no array has changed its length.  Each of the three holds of
    its launch alone, whether the other kernels would complete or not. *)
Theorem launches_touch_outputs :
  (∀ (σ σ' : gmap nat (list F)) hp hc W H ic ks kd dt sched,
     launch (wave_solve hp hc W H ic ks kd dt) sched σ = Some σ' →
     touches_only [hp] σ σ')
  ∧ (∀ (σ σ' : gmap nat (list F)) hc hp W H cx cy r mag t sched,
       launch (wave_displace hc hp W H cx cy r mag t) sched σ = Some σ' →
       touches_only [hc; hp] σ σ')
  ∧ (∀ (σ : gmap nat (list F)) (ν ν' : gmap nat (list (vec3 F)))
       heights vertices sched,
       launch (λ tid ν, grid_update heights vertices tid σ ν) sched ν = Some ν' →
       touches_only [vertices] ν ν').
Proof.
  split_and!.
  - intros σ σ' hp hc W H ic ks kd dt sched Hl.
    eapply launch_touches; [| exact Hl]. intros ???. apply wave_solve_touches.
  - intros σ σ' hc hp W H cx cy r mag t sched Hl.
    eapply launch_touches; [| exact Hl]. intros ???. apply wave_displace_touches.
  - intros σ ν ν' heights vertices sched Hl.
    eapply launch_touches; [| exact Hl]. intros ???. apply grid_update_touches.
Qed.

End Footprint.

(** ** The loops of the script *)

Section HostLoop.
Context {F : Type} {SF : Scalar F}.
Implicit Types (st : @host F) (cfg : @params F) (o : oracle).

Lemma touches_only_lookup {A} fs (σ σ' : gmap nat (list A)) g a :
  touches_only fs σ σ' → σ !! g = Some a →
  ∃ a', σ' !! g = Some a' ∧ length a' = length a.
Proof.
  intros [_ Hlen] Hg. specialize (Hlen g). rewrite Hg in Hlen.
  destruct (σ' !! g) as [a'|]; [| done]. exists a'. split; [done |].
  by injection Hlen.
Qed.


(** What an integration that completes has done. *)
Lemma integrate_effect o cfg ic dt st st' :
  integrate o cfg ic dt st = Ok st' →
  sim_grid0 st' = sim_grid1 st ∧ sim_grid1 st' = sim_grid0 st
  ∧ sim_host st' = sim_host st ∧ verts_host st' = verts_host st
  ∧ vdevice st' = vdevice st ∧ sim_time st' = sim_time st
  ∧ launched st' = S (launched st)
  ∧ touches_only [sim_grid0 st] (device st) (device st').
Proof.
  unfold integrate. destruct (launch _ _ (device st)) as [σ|] eqn:Hl; [| done].
  intros [= <-]. split_and!; try done. simpl.
  eapply launch_touches; [| exact Hl]. intros ???. apply wave_solve_touches.
Qed.

(** What a substep that completes has done. *)
Lemma substep_effect o cfg dt st st' :
  substep o cfg dt st = Ok st' →
  sim_grid0 st' = sim_grid1 st ∧ sim_grid1 st' = sim_grid0 st
  ∧ sim_host st' = sim_host st ∧ verts_host st' = verts_host st
  ∧ vdevice st' = vdevice st ∧ sim_time st' = (sim_time st + dt)%F
  ∧ launched st' = S (S (launched st))
  ∧ touches_only [sim_grid0 st; sim_grid1 st] (device st) (device st').
Proof.
  unfold substep.
  destruct (launch _ _ (device st)) as [σ1|] eqn:Hl; [| done].
  destruct (py_div _ _) as [ic|]; [| done].
  destruct (integrate _ _ _ _ _) as [st2|] eqn:Hint; [| done].
  apply integrate_effect in Hint as (H0 & H1 & Hh & Hv & Hvd & Ht & Hn & Hout).
  simpl in *. intros [= <-]. simpl. split_and!; try congruence.
  eapply touches_only_trans.
  - eapply launch_touches; [| exact Hl]. intros ???. apply wave_displace_touches.
  - eapply touches_only_mono; [| exact Hout].
    intros g ->%list_elem_of_singleton. by left.
Qed.

Lemma substeps_effect o cfg dt k st st' :
  repeat_outcome k (substep o cfg dt) st = Ok st' →
  sim_grid0 st' = (if Nat.even k then sim_grid0 st else sim_grid1 st)
  ∧ sim_grid1 st' = (if Nat.even k then sim_grid1 st else sim_grid0 st)
  ∧ sim_host st' = sim_host st ∧ verts_host st' = verts_host st
  ∧ vdevice st' = vdevice st
  ∧ sim_time st' = Nat.iter k (λ t, (t + dt)%F) (sim_time st)
  ∧ launched st' = (launched st + 2 * k)%nat
  ∧ touches_only [sim_grid0 st; sim_grid1 st] (device st) (device st').
Proof.
  revert st. induction k as [|k IH]; intros st.
  - intros [= <-].
    split_and!; first [done | simpl; lia | apply touches_only_refl].
  - cbn [repeat_outcome].
    destruct (substep o cfg dt st) as [st1|] eqn:Hst1; [| done].
    apply substep_effect in Hst1 as (H0 & H1 & Hh & Hv & Hvd & Ht & Hn & Hout).
    intros (IH0 & IH1 & IHh & IHv & IHvd & IHt & IHn & IHout)%IH.
    rewrite Nat.even_succ, <- Nat.negb_even, Nat.iter_succ_r.
    rewrite H0, H1 in IH0, IH1, IHout.
    split_and!; try congruence.
    + rewrite IH0. by destruct (Nat.even k).
    + rewrite IH1. by destruct (Nat.even k).
    + lia.
    + eapply touches_only_trans; [exact Hout |].
      eapply touches_only_mono; [| exact IHout].
      intros g [->|[->|[]%elem_of_nil]%elem_of_cons]%elem_of_cons;
        [right; left | left].
Qed.

(** X6. The books of [k] substeps that complete: the two references have
    been exchanged [k] times, so they are back for an even [k] and exchanged
    for an odd one; two kernels have been launched per substep; the clock has
    been advanced [k] times by the time step, one addition after the other;
    the vertices are what they were; and in the store of scalar arrays nothing
    but the two grids has been written, every array keeping its length. *)
Theorem substeps_bookkeeping o cfg dt k st st' :
  repeat_outcome k (substep o cfg dt) st = Ok st' →
  sim_grid0 st' = (if Nat.even k then sim_grid0 st else sim_grid1 st)
  ∧ sim_grid1 st' = (if Nat.even k then sim_grid1 st else sim_grid0 st)
  ∧ sim_host st' = sim_host st ∧ verts_host st' = verts_host st
  ∧ vdevice st' = vdevice st
  ∧ sim_time st' = Nat.iter k (λ t, (t + dt)%F) (sim_time st)
  ∧ launched st' = (launched st + 2 * k)%nat
  ∧ touches_only [sim_grid0 st; sim_grid1 st] (device st) (device st').
Proof. exact (substeps_effect o cfg dt k st st'). Qed.

(** Well-formedness travels along steps that exchange the references or
    leave them, and keep the lengths of the arrays. *)
Lemma well_formed_carried cfg st st' fs fv :
  well_formed cfg st →
  (sim_grid0 st' = sim_grid0 st ∧ sim_grid1 st' = sim_grid1 st)
  ∨ (sim_grid0 st' = sim_grid1 st ∧ sim_grid1 st' = sim_grid0 st) →
  sim_host st' = sim_host st → verts_host st' = verts_host st →
  touches_only fs (device st) (device st') →
  touches_only fv (vdevice st) (vdevice st') →
  well_formed cfg st'.
Proof.
  intros (Hne & Hh0 & Hh1 & a & b & h & vs & Ha & Hb & Hh & Hvs
          & Hla & Hlb & Hlh & Hlvs) Hlabels Hhost Hverts Hd Hv.
  destruct (touches_only_lookup _ _ _ _ _ Hd Ha) as (a' & Ha' & Hla').
  destruct (touches_only_lookup _ _ _ _ _ Hd Hb) as (b' & Hb' & Hlb').
  destruct (touches_only_lookup _ _ _ _ _ Hd Hh) as (h' & Hh' & Hlh').
  destruct (touches_only_lookup _ _ _ _ _ Hv Hvs) as (vs' & Hvs' & Hlvs').
  unfold well_formed. rewrite Hhost, Hverts.
  destruct Hlabels as [[-> ->] | [-> ->]].
  - split_and!; [done .. |]. exists a', b', h', vs'.
    split_and!; congruence.
  - split_and!; [done .. |]. exists b', a', h', vs'.
    split_and!; congruence.
Qed.

Lemma substep_well_formed o cfg dt st st' :
  well_formed cfg st → substep o cfg dt st = Ok st' → well_formed cfg st'.
Proof.
  intros Hwf (H0 & H1 & Hh & Hv & Hvd & _ & _ & Hout)%substep_effect.
  eapply (well_formed_carried cfg st st' _ []); [done | by right | done .. |].
  rewrite Hvd. apply touches_only_refl.
Qed.

Lemma well_formed_grids cfg st :
  well_formed cfg st → grids_satisfy (λ _, True) cfg st.
Proof.
  intros (Hne & _ & _ & a & b & _ & _ & Ha & Hb & _ & _ & Hla & Hlb & _).
  split; [done |]. exists a, b.
  split_and!; [done .. | by apply Forall_true | by apply Forall_true].
Qed.

(** X5. An integration on a well-formed state completes in whatever order
    the threads run, and leaves under [sim_grid0] the array that [wave_solve]
    read as the current field, with the contents it had before the launch.
    The heights the launch computed are in the array that [sim_grid1] names
    afterwards: cell [i] holds the value of thread [i] of [wave_solve], read
    off the store the launch started from.  No other array has been written,
    one kernel has been launched, and neither the clock nor the vertices have
    changed. *)
Theorem integrate_keeps_current o cfg ic dt st :
  fair o → 1 ≤ sim_width cfg → 1 ≤ sim_height cfg → well_formed cfg st →
  ∃ st' new,
    integrate o cfg ic dt st = Ok st'
    ∧ sim_grid0 st' = sim_grid1 st ∧ sim_grid1 st' = sim_grid0 st
    ∧ device st' !! sim_grid0 st' = device st !! sim_grid1 st
    ∧ device st' !! sim_grid1 st' = Some new
    ∧ length new = Z.to_nat (sim_width cfg * sim_height cfg)
    ∧ (∀ i, 0 ≤ i < sim_width cfg * sim_height cfg →
         ∃ h, new !! Z.to_nat i = Some h
              ∧ wave_solve_value (device st) (sim_grid0 st) (sim_grid1 st)
                  (sim_width cfg) (sim_height cfg) ic (k_speed cfg) (k_damp cfg)
                  dt i
                = Some h)
    ∧ touches_only [sim_grid0 st] (device st) (device st')
    ∧ launched st' = S (launched st)
    ∧ sim_time st' = sim_time st ∧ vdevice st' = vdevice st.
Proof.
  intros Ho HW HH (Hne & _ & _ & a & b & _ & _ & Ha & Hb & _ & _ & Hla & Hlb & _).
  pose proof (Ho (launched st) (sim_width cfg * sim_height cfg)) as Hs.
  pose proof (wave_solve_launch (device st) (sim_grid0 st) (sim_grid1 st) b a
                (sim_width cfg) (sim_height cfg) ic (k_speed cfg) (k_damp cfg) dt
                _ HW HH Hne Hb Ha Hlb Hla Hs) as Hl.
  eexists _, _. unfold integrate. rewrite Hl.
  split_and!; [reflexivity | done | done | | | | | | done | done | done]; simpl.
  - by rewrite lookup_insert_ne.
  - apply lookup_insert_eq.
  - by rewrite length_writes.
  - intros i Hi.
    destruct (wave_solve_value_Some (device st) (sim_grid0 st) (sim_grid1 st) b a
                (sim_width cfg) (sim_height cfg) ic (k_speed cfg) (k_damp cfg) dt i)
      as (lap & h1 & h0 & _ & _ & _ & Hv); [done .. |].
    eexists. split; [| exact Hv].
    rewrite writes_lookup_in.
    + by rewrite Z2Nat.id, Hv by lia.
    + apply (schedule_elem_of _ _ _ Hs). lia.
    + intros t Ht%(schedule_elem_of _ _ _ Hs). lia.
    + lia.
  - eapply launch_touches; [| exact Hl]. intros ???. apply wave_solve_touches.
Qed.




(** A substep from a well-formed state: its first launch completes; then
    the quotient [1.0 / grid_size] raises, or the second launch completes. *)
Lemma substep_progress o cfg dt st :
  fair o → 1 ≤ sim_width cfg → 1 ≤ sim_height cfg → well_formed cfg st →
  if fis_zero (grid_size cfg)
  then substep o cfg dt st = Raised ZeroDivisionError (S (launched st))
  else ∃ st', substep o cfg dt st = Ok st' ∧ well_formed cfg st'.
Proof.
  intros Ho HW HH Hwf.
  destruct (fis_zero (grid_size cfg)) eqn:Hgs.
  - destruct Hwf as (Hne & _ & _ & a & b & _ & _ & Ha & Hb & _ & _ & Hla & Hlb & _).
    destruct (wave_displace_cells (device st) (sim_grid0 st) (sim_grid1 st) a b
                (sim_width cfg) (sim_height cfg)
                (center (sim_width cfg) (fsin (sim_time st)))
                (center (sim_height cfg) (fcos (sim_time st)))
                (flit 10) (grid_displace cfg) (- fpi * flit 0.5)%F
                (o (launched st) (sim_width cfg * sim_height cfg)))
      as (c' & p' & Hl & _); [done .. | apply Ho |].
    unfold substep. rewrite Hl. unfold py_div. by rewrite Hgs.
  - destruct (substep_zero (λ _ : F, True) (λ _ : F, True)
                (λ _ _ _ _, I) (λ _ _ _ _, I) (λ _ _ _ _, I) (λ _ _ _ _, I) I
                o cfg (flit 1 / grid_size cfg)%F dt st)
      as (st' & Hst' & _); try done.
    + unfold py_div. by rewrite Hgs.
    + by apply well_formed_grids.
    + exists st'. split; [done |]. by eapply substep_well_formed.
Qed.








(** The set-up of a configuration whose parameters are in order. *)
Lemma setup_progress cfg frames :
  0 ≤ sim_width cfg * sim_height cfg →
  ftrunc (sim_duration cfg * sim_fps cfg)%F = Some frames →
  fis_zero (sim_fps cfg) = false →
  fis_finite (of_int (sim_substeps cfg)) = true → sim_substeps cfg ≠ 0 →
  ∃ dt st, setup cfg = Ok (Z.to_nat frames, dt, st) ∧ well_formed cfg st
           ∧ launched st = 0%nat ∧ centre st = None.
Proof.
  intros Hn Hframes Hfps Hfin Hsub. unfold setup. rewrite Hframes.
  unfold py_div, py_div_int, py_float, wp_zeros. rewrite Hfps, Hfin.
  rewrite decide_False, !decide_True by done.
  eexists _, _. split; [done |]. split; [| done].
  unfold well_formed. simpl. split_and!; [done .. |].
  eexists _, _, _, _. split_and!; [done .. | | | |].
  - apply length_replicate.
  - apply length_replicate.
  - apply length_replicate.
  - rewrite length_place_vertices. apply length_replicate.
Qed.


(** X9. A cell spacing of zero stops the script inside its first substep:
    with the other parameters in order, at least one frame and at least one
    substep, the first launch of [wave_displace] completes and the quotient
    [1.0 / grid_size] then raises, so that the run ends with
    [ZeroDivisionError] after exactly one launch. *)
Theorem zero_spacing_raises_after_displace o cfg frames :
  fair o → 1 ≤ sim_width cfg → 1 ≤ sim_height cfg →
  sim_width cfg * sim_height cfg < 2 ^ 31 →
  ftrunc (sim_duration cfg * sim_fps cfg)%F = Some frames →
  fis_zero (sim_fps cfg) = false →
  0 < frames →
  0 < sim_substeps cfg → fis_finite (of_int (sim_substeps cfg)) = true →
  fis_zero (grid_size cfg) = true →
  run o cfg = Raised ZeroDivisionError 1.
Proof.
  intros Ho HW HH _ Hframes Hfps Hf Hsub Hfin Hgs.
  destruct (setup_progress cfg frames) as (dt & st & Hsetup & Hwf & Hn & _);
    [nia | done | done | done | lia |].
  unfold run. rewrite Hsetup.
  destruct (Z.to_nat frames) as [|n] eqn:Hfn; [lia |].
  cbn [repeat_outcome]. unfold frame.
  destruct (Z.to_nat (sim_substeps cfg)) as [|k] eqn:Hk; [lia |].
  cbn [repeat_outcome].
  pose proof (substep_progress o cfg dt st Ho HW HH Hwf) as Hp.
  rewrite Hgs in Hp. by rewrite Hp, Hn.
Qed.


End HostLoop.

(** ** Displacing twice *)

Section Displace.
Context {F : Type} {SF : Scalar F}.

Lemma writes_idem {A} (w : Z → option A) s s' (a : list A) :
  (∀ t, t ∈ s' → t ∈ s) → (∀ t, t ∈ s → 0 ≤ t < Z.of_nat (length a)) →
  writes w s' (writes w s a) = writes w s a.
Proof.
  intros Hsub Hs. apply list_eq. intros i.
  assert (∀ t, t ∈ s → 0 ≤ t) as Hs0 by (intros t Ht; apply Hs in Ht; lia).
  assert (∀ t, t ∈ s' → 0 ≤ t) as Hs0' by (intros t Ht; apply Hs0, Hsub, Ht).
  destruct (decide (Z.of_nat i ∈ s')) as [Hin|Hnin].
  - pose proof (Hs _ (Hsub _ Hin)) as Hi.
    rewrite (writes_lookup_in w s'); [| done | done | rewrite length_writes; lia].
    destruct (w (Z.of_nat i)) as [x|] eqn:Hw; [| done].
    rewrite (writes_lookup_in w s); [| by apply Hsub | done | lia].
    by rewrite Hw.
  - by rewrite writes_lookup_notin.
Qed.

(** X11. Displacing twice is displacing once: a second launch of
    [wave_displace] with the same centre, radius and height, in whatever
    order its threads run, completes and leaves the store as the first
    launch left it. *)
Theorem wave_displace_idempotent (σ : gmap nat (list F)) hc hp c p W H cx cy r mag
    t dim s s' :
  W ≠ 0 → hc ≠ hp → σ !! hc = Some c → σ !! hp = Some p →
  dim ≤ Z.of_nat (length c) → dim ≤ Z.of_nat (length p) →
  schedule dim s → schedule dim s' →
  ∃ σ1, launch (wave_displace hc hp W H cx cy r mag t) s σ = Some σ1
        ∧ launch (wave_displace hc hp W H cx cy r mag t) s' σ1 = Some σ1.
Proof.
  intros HW Hne Hc Hp Hlc Hlp Hs Hs'.
  assert (∀ l : list F, dim ≤ Z.of_nat (length l) →
            ∀ i, i ∈ s → 0 ≤ i < Z.of_nat (length l)) as Hin.
  { intros l Hl i Hi%(schedule_elem_of _ _ _ Hs). lia. }
  assert (∀ l : list F, dim ≤ Z.of_nat (length l) →
            ∀ i, i ∈ s' → 0 ≤ i < Z.of_nat (length l)) as Hin'.
  { intros l Hl i Hi%(schedule_elem_of _ _ _ Hs'). lia. }
  assert (∀ i, i ∈ s' → i ∈ s) as Hsub.
  { intros i Hi%(schedule_elem_of _ _ _ Hs'). by apply (schedule_elem_of _ _ _ Hs). }
  eexists. split.
  - apply (wave_displace_launch σ hc hp c p); [done .. |].
    intros i Hi. split; by apply Hin.
  - set (w := λ i, if in_disk W cx cy r i then Some (mag * fsin t)%F else None).
    rewrite (wave_displace_launch _ hc hp (writes w s c) (writes w s p));
      [| done | done | by rewrite lookup_insert_ne, lookup_insert_eq
       | by rewrite lookup_insert_eq
       | intros i Hi; rewrite !length_writes; split; by apply Hin'].
    cbn zeta. fold w.
    rewrite !writes_idem by (done || by apply Hin).
    rewrite (insert_id (<[hp:=_]> _) hc)
      by (by rewrite lookup_insert_ne, lookup_insert_eq).
    by rewrite insert_insert_eq.
Qed.

End Displace.

(** ** The properties above at work *)

Section LoopCases.
#[local] Existing Instance Binary64.taylor.

Lemma grid_index_round_trip_witness :
  cell_of (grid_index 3 2 4) 4 = Some (3, 2)
  ∧ ∃ x' y', cell_of 11 4 = Some (x', y') ∧ 0 ≤ x' < 4 ∧ 0 ≤ y'
             ∧ grid_index x' y' 4 = 11.
Proof.
  destruct (grid_index_round_trip 3 2 11 4) as [H1 H2]; [lia |].
  split; [apply H1; lia | apply H2; lia].
Defined.

Lemma place_vertices_spec_witness :
  length (place_vertices Binary64.script_4x4 (replicate 16 (0, 0, 0)%float))
  = length (replicate 16 (0, 0, 0)%float)
  ∧ place_vertices Binary64.script_4x4 (replicate 16 (0, 0, 0)%float)
      !! Z.to_nat (grid_index 3 2 (sim_width Binary64.script_4x4))
    = Some ((of_int 3 * grid_size Binary64.script_4x4)%F, flit 0,
            (of_int 2 * grid_size Binary64.script_4x4)%F).
Proof.
  apply (place_vertices_spec Binary64.script_4x4 (replicate 16 (0, 0, 0)%float) 3 2);
    [reflexivity | by vm_compute | by vm_compute].
Defined.

(** One launch of each kernel on the row of two cells, the threads in
    descending order. *)
Lemma launches_touch_outputs_witness :
  touches_only [0%nat] Binary64.two_cells
    (<[0%nat := [-98; 100]%float]> Binary64.two_cells)
  ∧ touches_only [1%nat; 0%nat] Binary64.two_cells
      (<[1%nat := [-1; 0]%float]> (<[0%nat := [-1; 0]%float]> ∅))
  ∧ touches_only [0%nat] Binary64.two_vertices
      (<[0%nat := [(1, 1, 3); (4, 0, 6)]%float]> ∅).
Proof.
  destruct (launches_touch_outputs (F := float)) as (Hsolve & Hdisplace & Hupdate).
  split_and!.
  - apply (Hsolve Binary64.two_cells _ 0%nat 1%nat 2 1
             10%float 1%float 0%float 1%float [1; 0]).
    by vm_compute.
  - apply (Hdisplace Binary64.two_cells _ 1%nat 0%nat 2 1
             0%float 0%float 0.5%float 1%float (- Binary64.pi * 0.5)%float [1; 0]).
    by vm_compute.
  - apply (Hupdate Binary64.two_cells Binary64.two_vertices _ 1%nat 0%nat [1; 0]).
    by vm_compute.
Defined.

Lemma row_host_well_formed :
  well_formed Binary64.row
    (Binary64.row_host 0 1 [1; 0]%float [0; 0]%float 0%float 0 None).
Proof.
  split_and!; [by vm_compute .. |].
  exists [0; 0]%float, [1; 0]%float, [7; 7]%float, [(1, 2, 3); (4, 5, 6)]%float.
  split_and!; reflexivity.
Qed.

(** An integration on the row of two cells: the bump stays in array 1, which
    [sim_grid0] names afterwards. *)
Lemma integrate_keeps_current_witness :
  let st := Binary64.row_host 0 1 [1; 0]%float [0; 0]%float 0%float 0 None in
  ∃ st' new,
    integrate Binary64.descending Binary64.row 10%float 1%float st = Ok st'
    ∧ sim_grid0 st' = sim_grid1 st ∧ sim_grid1 st' = sim_grid0 st
    ∧ device st' !! sim_grid0 st' = device st !! sim_grid1 st
    ∧ device st' !! sim_grid1 st' = Some new
    ∧ length new
      = Z.to_nat (sim_width Binary64.row * sim_height Binary64.row)
    ∧ (∀ i, 0 ≤ i < sim_width Binary64.row * sim_height Binary64.row →
         ∃ h, new !! Z.to_nat i = Some h
              ∧ wave_solve_value (device st) (sim_grid0 st) (sim_grid1 st)
                  (sim_width Binary64.row) (sim_height Binary64.row) 10%float
                  (k_speed Binary64.row) (k_damp Binary64.row) 1%float i
                = Some h)
    ∧ touches_only [sim_grid0 st] (device st) (device st')
    ∧ launched st' = S (launched st)
    ∧ sim_time st' = sim_time st ∧ vdevice st' = vdevice st.
Proof.
  apply (integrate_keeps_current Binary64.descending Binary64.row 10%float 1%float
           (Binary64.row_host 0 1 [1; 0]%float [0; 0]%float 0%float 0 None));
    [exact fair_descending | by vm_compute | by vm_compute
    | exact row_host_well_formed].
Defined.

(** Three substeps on the row of two cells, which the disturbance covers. *)
Lemma substeps_bookkeeping_witness :
  let st := Binary64.row_host 0 1 [1; 0]%float [0; 0]%float 0%float 0 None in
  let st' :=
    Binary64.row_host 1 0 [-0.5; -0.5]%float [-0.5; -0.5]%float 1.5%float 6
      (Some (center 2 (fsin 1%float), center 1 (fcos 1%float))) in
  sim_grid0 st' = (if Nat.even 3 then sim_grid0 st else sim_grid1 st)
  ∧ sim_grid1 st' = (if Nat.even 3 then sim_grid1 st else sim_grid0 st)
  ∧ sim_host st' = sim_host st ∧ verts_host st' = verts_host st
  ∧ vdevice st' = vdevice st
  ∧ sim_time st' = Nat.iter 3 (λ t, (t + 0.5%float)%F) (sim_time st)
  ∧ launched st' = (launched st + 2 * 3)%nat
  ∧ touches_only [sim_grid0 st; sim_grid1 st] (device st) (device st').
Proof.
  apply (substeps_bookkeeping ascending Binary64.row 0.5%float 3
           (Binary64.row_host 0 1 [1; 0]%float [0; 0]%float 0%float 0 None)
           (Binary64.row_host 1 0 [-0.5; -0.5]%float [-0.5; -0.5]%float
              1.5%float 6
              (Some (center 2 (fsin 1%float), center 1 (fcos 1%float))))).
  by vm_compute.
Defined.



Lemma zero_spacing_raises_after_displace_witness :
  run Binary64.descending Binary64.no_spacing = Raised ZeroDivisionError 1.
Proof.
  apply (zero_spacing_raises_after_displace Binary64.descending
           Binary64.no_spacing 300);
    [exact fair_descending | by vm_compute | by vm_compute | by vm_compute
    | reflexivity | reflexivity | by vm_compute | by vm_compute | reflexivity
    | reflexivity].
Defined.


Lemma wave_displace_idempotent_witness :
  ∃ σ1,
    launch (wave_displace 0 1 4 4 2%float 2%float 1.5%float 1%float
              (- Binary64.pi * 0.5)%float)
           (seqZ 0 16) Binary64.grid_4x4 = Some σ1
    ∧ launch (wave_displace 0 1 4 4 2%float 2%float 1.5%float 1%float
                (- Binary64.pi * 0.5)%float)
             (reverse (seqZ 0 16)) σ1 = Some σ1.
Proof.
  apply (wave_displace_idempotent Binary64.grid_4x4 0 1 Binary64.ramp Binary64.ramp
           4 4 2%float 2%float 1.5%float 1%float (- Binary64.pi * 0.5)%float 16
           (seqZ 0 16) (reverse (seqZ 0 16)));
    [lia | done | reflexivity | reflexivity | by vm_compute | by vm_compute
    | exact (fair_ascending 0%nat 16) | exact (fair_descending 0%nat 16)].
Defined.

End LoopCases.
